(** * DGGS data integration: the notebook's aggregation pipeline

    A shallow embedding of [ogc-code-sprint-data-integration.ipynb]:
    the two declared functions ([assign_h3_to_population], [aggregate]) and
    the notebook cells that normalise, group and merge their results.

    Conventions of the model.
    - Two arithmetics stand for Python's [float].  The type [float] is an
      exact rational extended with the IEEE special values: [Fin q], [PInf],
      [NInf], [NaN]; rounding, overflow and the sign of zero are outside it,
      the special values and the rules that produce them (x/0, 0/0, inf-inf,
      NaN propagation) are inside.  It carries the statements that rounding
      cannot change.  The module [B64] embeds [aggregate] once more over
      binary64 itself, bit for bit, for the statements about the values of
      the means.
    - The integer columns of the census (counts of people) hold 32-bit
      integers, as the frame read from the file has them: the product
      [EMP * 100] wraps around.  The sums of a group are taken to fit in
      their column and are written as exact integer sums.
    - A Python exception is a value [Raise e] of the [outcome] monad; a frame
      that a function changes in place lives in a store of objects.
    - [h3.latlng_to_cell] is a third-party function: it is a parameter of
      every definition that calls it.
    - The pandas operations ([groupby], [mean], [sum], [merge], [dropna],
      [min], [max]) are written out as list functions over typed rows. *)

From Stdlib Require Import Floats QArith Qcanon Qround Ascii.
From stdpp Require Import base list list_monad strings pretty numbers sorting gmap.

Local Open Scope Qc_scope.

(** ** Floats *)

Inductive float : Type :=
  | Fin (q : Qc)
  | PInf
  | NInf
  | NaN.

Global Instance float_eq_dec : EqDecision float.
Proof. solve_decision. Defined.

Definition isnan (x : float) : bool :=
  match x with NaN => true | _ => false end.

Definition fneg (x : float) : float :=
  match x with
  | Fin q => Fin (- q)
  | PInf => NInf
  | NInf => PInf
  | NaN => NaN
  end.

Definition fadd (x y : float) : float :=
  match x, y with
  | NaN, _ | _, NaN => NaN
  | PInf, NInf | NInf, PInf => NaN
  | PInf, _ | _, PInf => PInf
  | NInf, _ | _, NInf => NInf
  | Fin p, Fin q => Fin (p + q)
  end.

Definition fsub (x y : float) : float := fadd x (fneg y).

(** True division as numpy performs it on float64: a zero divisor gives an
    infinity of the sign of the dividend, and 0/0 gives NaN; nothing is
    raised. *)
Definition fdiv (x y : float) : float :=
  match x, y with
  | NaN, _ | _, NaN => NaN
  | (PInf | NInf), (PInf | NInf) => NaN
  | PInf, Fin q => if decide (q < 0) then NInf else PInf
  | NInf, Fin q => if decide (q < 0) then PInf else NInf
  | Fin _, (PInf | NInf) => Fin 0
  | Fin p, Fin q =>
      if decide (q = 0) then
        if decide (p = 0) then NaN
        else if decide (0 < p) then PInf else NInf
      else Fin (p / q)
  end.

(** [x < y] on floats; false as soon as one side is NaN. *)
Definition fltb (x y : float) : bool :=
  match x, y with
  | NaN, _ | _, NaN => false
  | _, NInf => false
  | NInf, _ => true
  | PInf, _ => false
  | _, PInf => true
  | Fin p, Fin q => bool_decide (p < q)
  end.

(** [float(n)] for a Python int. *)
Definition float_of_int (n : Z) : float := Fin (Qc_of_Z n).
Definition float_of_nat (n : nat) : float := float_of_int (Z.of_nat n).


(** Running sum from 0.0, left to right. *)
Definition fsum (xs : list float) : float := foldl fadd (Fin 0) xs.

(** ** Exceptions *)

Definition exception : Type := string.

Inductive outcome (A : Type) : Type :=
  | Ok (a : A)
  | Raise (e : exception).
Arguments Ok {A} a.
Arguments Raise {A} e.

Global Instance outcome_ret : MRet outcome := λ A a, Ok a.
Global Instance outcome_bind : MBind outcome := λ A B k m,
  match m with
  | Ok a => k a
  | Raise e => Raise e
  end.

(** A [for] loop over [l] whose body may raise: the state when the loop is
    over, or the exception of the first iteration that raised. *)
Fixpoint for_each {S A : Type} (body : S → A → outcome S) (s : S) (l : list A)
    : outcome S :=
  match l with
  | [] => Ok s
  | x :: l => s ← body s x; for_each body s l
  end.

(** ** Grid cells *)

(** [h3.latlng_to_cell] returns the cell index as a [str]. *)
Definition CellId : Type := string.

(** The signature of [h3.latlng_to_cell(lat, lng, res)]. *)
Definition Indexer : Type := Qc → Qc → Z → outcome CellId.

(** The coordinates a grid accepts: latitude in [-90, 90], longitude in
    [-180, 180]. *)
Definition valid_coordinate (lat lon : Qc) : Prop :=
  Qc_of_Z (-90) ≤ lat ≤ Qc_of_Z 90 ∧ Qc_of_Z (-180) ≤ lon ≤ Qc_of_Z 180.

(** Modelled from the spec: the GridIndexer's [index] operation.  The
    notebook calls [h3.latlng_to_cell], whose code is not in the repository;
    this is its contract as the specification words it: a coordinate outside
    the valid ranges signals [InvalidCoordinate], a resolution outside the
    supported set signals [InvalidResolution], and a valid input is mapped,
    as given, to its cell.  The supported set and the cell function are
    left open. *)
Definition index (supported : Z → bool) (cell_of : Qc → Qc → Z → CellId)
    : Indexer := λ lat lon resolution,
  if decide (valid_coordinate lat lon) then
    if supported resolution then Ok (cell_of lat lon resolution)
    else Raise "InvalidResolution"
  else Raise "InvalidCoordinate".

(** ** pandas: grouping *)

Definition cell_le (k1 k2 : CellId) : Prop := String.leb k1 k2 = true.

Global Instance cell_le_dec : RelDecision cell_le.
Proof. intros k1 k2. unfold cell_le. apply _. Defined.

(** The group keys of [df.groupby('h3_index')]: each distinct key once, in
    ascending order ([sort=True] is the default). *)
Definition group_keys {V : Type} (rows : list (CellId * V)) : list CellId :=
  merge_sort cell_le (remove_dups rows.*1).

(** The values of one group, in row order. *)
Definition group_values {V : Type} (k : CellId) (rows : list (CellId * V)) : list V :=
  (filter (λ r, r.1 = k) rows).*2.

Definition groupby {V W : Type} (agg : list V → W) (rows : list (CellId * V))
    : list (CellId * W) :=
  (λ k, (k, agg (group_values k rows))) <$> group_keys rows.

(** [GroupBy.mean]: NaN entries are skipped; the mean of what is left is its
    sum divided by its count, and NaN when nothing is left.  (pandas adds
    with a compensated sum, which in exact arithmetic is the plain sum.) *)
Definition valid (xs : list float) : list float :=
  filter (λ x, isnan x = false) xs.

Definition mean (xs : list float) : float :=
  match valid xs with
  | [] => NaN
  | v :: vs => fdiv (fsum (v :: vs)) (float_of_nat (length (v :: vs)))
  end.

(** ** Rasters *)

(** [affine.Affine(a, b, c, d, e, f)]. *)
Record Affine : Type := mkAffine {
  coef_a : Qc; coef_b : Qc; coef_c : Qc;
  coef_d : Qc; coef_e : Qc; coef_f : Qc
}.

(** [transform * (col, row)]. *)
Definition affine_mul (t : Affine) (v : Qc * Qc) : Qc * Qc :=
  let '(vx, vy) := v in
  (vx * coef_a t + vy * coef_b t + coef_c t,
   vx * coef_d t + vy * coef_e t + coef_f t).

(** An opened raster dataset: band 1 as [src.read(1)] returns it (a 2-D array
    of the given shape, [item row col] being [array[row, col]]), the
    geotransform [src.transform], and the declared no-data value
    [src.nodata]. *)
Record Raster : Type := mkRaster {
  shape : nat * nat;
  item : nat → nat → float;
  transform : Affine;
  nodata : option float
}.

Definition Qc_of_nat (n : nat) : Qc := Qc_of_Z (Z.of_nat n).

(** The pixel indices in the order of the two nested [for] loops. *)
Definition pixels (raster : Raster) : list (nat * nat) :=
  row ← seq 0 (shape raster).1;
  col ← seq 0 (shape raster).2;
  [(row, col)].

(** One iteration of the loop body: the tuple appended to [values]. *)
Definition pixel_entry (latlng_to_cell : Indexer) (raster : Raster) (resolution : Z)
    (px : nat * nat) : outcome (CellId * float) :=
  let '(row, col) := px in
  let '(lon, lat) := affine_mul (transform raster) (Qc_of_nat col, Qc_of_nat row) in
  h3_index ← latlng_to_cell lat lon resolution;
  mret (h3_index, item raster row col).

(** [values.append((h3_index, float(array[row, col])))]: the list after one
    more iteration. *)
Definition append_pixel (latlng_to_cell : Indexer) (raster : Raster) (resolution : Z)
    (values : list (CellId * float)) (px : nat * nat)
    : outcome (list (CellId * float)) :=
  entry ← pixel_entry latlng_to_cell raster resolution px;
  mret (values ++ [entry]).

(** [values = []] and the two nested loops: the list [values] when the loops
    are over. *)
Definition pixel_values (latlng_to_cell : Indexer) (raster : Raster) (resolution : Z)
    : outcome (list (CellId * float)) :=
  for_each (append_pixel latlng_to_cell raster resolution) [] (pixels raster).

(** A per-cell table with one float column: the column's name and the rows
    (h3_index, value). *)
Record Layer : Type := mkLayer {
  column : string;
  cells : list (CellId * float)
}.

(** The frame is built with the columns ['h3_index'] and [field].  When
    [field] is ['h3_index'] itself two columns carry the name and
    [groupby('h3_index')] raises [ValueError] (its grouper is not
    one-dimensional); otherwise the rows are grouped and averaged. *)
Definition aggregate (latlng_to_cell : Indexer) (raster : Raster)
    (resolution : Z) (field : string) : outcome Layer :=
  values ← pixel_values latlng_to_cell raster resolution;
  if decide (field = "h3_index") then Raise "ValueError"
  else mret (mkLayer field (groupby mean values)).

(** ** Min-max normalisation (the cell after [aggregate(ndvi, ...)]) *)

(** [Series.min()] and [Series.max()]: NaN entries are skipped, and a series
    with nothing left gives NaN. *)
Definition series_min (xs : list float) : float :=
  match valid xs with
  | [] => NaN
  | v :: vs => foldl (λ m x, if fltb x m then x else m) v vs
  end.

Definition series_max (xs : list float) : float :=
  match valid xs with
  | [] => NaN
  | v :: vs => foldl (λ m x, if fltb m x then x else m) v vs
  end.

(** [(s - s.min()) / (s.max() - s.min())], element by element. *)
Definition normalize (s : list float) : list float :=
  (λ v, fdiv (fsub v (series_min s)) (fsub (series_max s) (series_min s))) <$> s.

(** [df[col] = normalize(df[col])] on a layer: keys stay, values are
    replaced position by position. *)
Definition normalize_layer (df : Layer) : Layer :=
  mkLayer (column df) (zip (cells df).*1 (normalize (cells df).*2)).

(** ** Census records *)

Module Point.
(** A shapely point: [geom.x] is the longitude, [geom.y] the latitude. *)
Record t : Type := mk { x : Qc; y : Qc }.
End Point.

Module Census.
(** The numeric attributes the notebook keeps: total, male, female and
    employed counts. *)
Record t : Type := mk { T : Z; M : Z; F : Z; EMP : Z }.
End Census.

Record Feature : Type := mkFeature {
  geometry : Point.t;
  properties : Census.t
}.

(** The frame [gpd.read_file] returns, one row per feature, with the column
    ['h3_index'] present or not.  The frame is taken as the notebook's file
    gives it: every geometry is a point and the four integer columns are
    present.  A frame without one of these columns (a [KeyError] at the
    selection) or with another kind of geometry (an [AttributeError] in the
    lambda) is not represented. *)
Record GeoDataFrame : Type := mkGeoDataFrame {
  features : list Feature;
  h3_index : option (list CellId)
}.

(** Python objects live in a store; a variable holds a reference. *)
Definition loc : Type := positive.
Abbreviation heap := (gmap loc GeoDataFrame).

(** [population_data.geometry.apply(lambda geom: h3.latlng_to_cell(geom.y,
    geom.x, resolution))]: the cell of every row, in row order. *)
Definition h3_column (latlng_to_cell : Indexer) (df : GeoDataFrame)
    (resolution : Z) : outcome (list CellId) :=
  mapM (λ ft, latlng_to_cell (Point.y (geometry ft)) (Point.x (geometry ft))
                             resolution)
       (features df).

(** [population_data['h3_index'] = ...; return population_data]: the column
    is computed, stored into the frame the argument refers to, and the same
    reference is returned. *)
Definition assign_h3_to_population (latlng_to_cell : Indexer)
    (population_data : loc) (resolution : Z) (σ : heap) : outcome (loc * heap) :=
  match σ !! population_data with
  | None => Raise "NameError"
  | Some df =>
      col ← h3_column latlng_to_cell df resolution;
      mret (population_data,
            <[population_data := mkGeoDataFrame (features df) (Some col)]> σ)
  end.

(** [population_data[["h3_index", "T", "M", "F", "EMP"]]]: a new frame. *)
Definition select_columns (df : GeoDataFrame) : outcome (list (CellId * Census.t)) :=
  match h3_index df with
  | None => Raise "KeyError"
  | Some col => mret (zip col (properties <$> features df))
  end.

Definition zsum (ns : list Z) : Z := foldr Z.add 0%Z ns.

(** [GroupBy.sum] on the four integer columns. *)
Definition sum_census (g : list Census.t) : Census.t :=
  Census.mk (zsum (Census.T <$> g)) (zsum (Census.M <$> g))
            (zsum (Census.F <$> g)) (zsum (Census.EMP <$> g)).

(** A row of the grouped census table once [EMP_PERC] is added. *)
Record CellSummary : Type := mkCellSummary {
  h3 : CellId;
  totals : Census.t;
  EMP_PERC : float
}.

(** The result of an operation on 32-bit signed integers: the exact result
    modulo 2^32, taken in [-2^31, 2^31); and the integers that are their own
    32-bit value. *)
Definition int32 (z : Z) : Z := ((z + 2 ^ 31) mod 2 ^ 32 - 2 ^ 31)%Z.
Definition fits_int32 (z : Z) : Prop := (- 2 ^ 31 ≤ z < 2 ^ 31)%Z.

(** [population_data["EMP"] * 100 / population_data["T"]]: the product is
    taken in the 32 bits of the column and wraps around, the quotient is a
    float. *)
Definition emp_perc (c : Census.t) : float :=
  fdiv (float_of_int (int32 (Census.EMP c * 100))) (float_of_int (Census.T c)).

Definition add_emp_perc (rows : list (CellId * Census.t)) : list CellSummary :=
  (λ r, mkCellSummary r.1 r.2 (emp_perc r.2)) <$> rows.

(** The cell "Convert census data to DGGS format". *)
Definition census_cell (latlng_to_cell : Indexer) (population_data : loc)
    (resolution : Z) (σ : heap) : outcome (list CellSummary * heap) :=
  '(population_data, σ) ← assign_h3_to_population latlng_to_cell population_data resolution σ;
  df ← from_option Ok (Raise "NameError") (σ !! population_data);
  selected ← select_columns df;
  mret (add_emp_perc (groupby sum_census selected), σ).

(** ** Joining per-cell tables *)

(** What [merge] and [dropna] need of a row: its ['h3_index'] and whether one
    of its columns holds NaN. *)
Class Row (A : Type) : Type := { key : A → CellId; hasna : A → bool }.

Global Instance layer_row : Row (CellId * float) :=
  {| key := fst; hasna := λ r, isnan r.2 |}.
Global Instance summary_row : Row CellSummary :=
  {| key := h3; hasna := λ r, isnan (EMP_PERC r) |}.
Global Instance joined_row `{Row A, Row B} : Row (A * B) :=
  {| key := λ r, key r.1; hasna := λ r, hasna r.1 || hasna r.2 |}.

(** [left.merge(right, on='h3_index', how='left')]: every left row, in order,
    paired with each right row of the same key; a left row without a match
    appears once with the right columns empty. *)
Definition merge `{Row A, Row B} (left : list A) (right : list B)
    : list (A * option B) :=
  a ← left;
  match filter (λ b, key b = key a) right with
  | [] => [(a, None)]
  | matches => (λ b, (a, Some b)) <$> matches
  end.

(** [.dropna()]: rows with an empty or NaN column are removed. *)
Definition dropna `{Row A, Row B} (rows : list (A * option B)) : list (A * B) :=
  r ← rows;
  match r.2 with
  | Some b => if hasna r.1 || hasna b then [] else [(r.1, b)]
  | None => []
  end.

Definition join `{Row A, Row B} (left : list A) (right : list B) : list (A * B) :=
  dropna (merge left right).

(** The cell "Merge all datasets". *)
Definition merge_cell (population_data : list CellSummary)
    (ndvi_df bel_pop_density : Layer)
    : list (CellSummary * (CellId * float) * (CellId * float)) :=
  join (join population_data (cells ndvi_df)) (cells bel_pop_density).

(** ** The notebook, cell by cell *)

(** The code cells in their order: the NDVI raster is aggregated and its
    column normalised, the census frame (already loaded, at [census]) is
    indexed, grouped and given its percentage, the density raster is
    aggregated, and the three tables are merged. *)
Definition notebook (latlng_to_cell : Indexer) (ndvi : Raster) (census : loc)
    (pop_dens : Raster) (resolution : Z) (σ : heap)
    : outcome (list (CellSummary * (CellId * float) * (CellId * float)) * heap) :=
  ndvi_df ← aggregate latlng_to_cell ndvi resolution "ndvi";
  let ndvi_df := normalize_layer ndvi_df in
  '(population_data, σ) ← census_cell latlng_to_cell census resolution σ;
  bel_pop_density ← aggregate latlng_to_cell pop_dens resolution "population_density";
  mret (merge_cell population_data ndvi_df bel_pop_density, σ).

(** A float of the unit interval. *)
Definition in_unit_interval (v : float) : Prop :=
  ∃ q, v = Fin q ∧ 0 ≤ q ≤ 1.

(** ** [aggregate] over binary64 *)

(** The same function once more, with the floats as Python has them: IEEE
    754 binary64 numbers (the primitive floats), every operation rounded to
    the nearest number. *)
Module B64.

Abbreviation float64 := PrimFloat.float.

(** The signature of [h3.latlng_to_cell(lat, lng, res)]. *)
Definition Indexer : Type := float64 → float64 → Z → outcome CellId.

(** The conversion of a loop index or of a count to a float. *)
Definition float_of_nat (n : nat) : float64 :=
  PrimFloat.of_uint63 (Uint63.of_Z (Z.of_nat n)).

(** [GroupBy.mean] on a float64 column, as pandas' [group_mean] computes it
    for one group: NaN entries are skipped; the others are counted in [nobs]
    and added into [sumx] by Kahan's compensated summation, a compensation
    that comes out NaN (after an infinity) being reset to 0. *)
Record Kahan : Type := mkKahan {
  nobs : nat;
  sumx : float64;
  compensation : float64
}.

Definition add_sample (acc : Kahan) (val : float64) : Kahan :=
  if PrimFloat.is_nan val then acc
  else
    let y := (val - compensation acc)%float in
    let t := (sumx acc + y)%float in
    let c := (t - sumx acc - y)%float in
    mkKahan (S (nobs acc)) t (if PrimFloat.is_nan c then 0%float else c).

Definition group_mean (xs : list float64) : Kahan :=
  foldl add_sample (mkKahan 0 0%float 0%float) xs.

(** The mean is [sumx / nobs], and NaN for a group with no entry left. *)
Definition mean (xs : list float64) : float64 :=
  let acc := group_mean xs in
  match nobs acc with
  | O => PrimFloat.nan
  | S _ => (sumx acc / float_of_nat (nobs acc))%float
  end.

(** [affine.Affine(a, b, c, d, e, f)] and [transform * (col, row)]. *)
Record Affine : Type := mkAffine {
  coef_a : float64; coef_b : float64; coef_c : float64;
  coef_d : float64; coef_e : float64; coef_f : float64
}.

Definition affine_mul (t : Affine) (v : float64 * float64) : float64 * float64 :=
  let '(vx, vy) := v in
  ((vx * coef_a t + vy * coef_b t + coef_c t)%float,
   (vx * coef_d t + vy * coef_e t + coef_f t)%float).

Record Raster : Type := mkRaster {
  shape : nat * nat;
  item : nat → nat → float64;
  transform : Affine;
  nodata : option float64
}.

Definition pixels (raster : Raster) : list (nat * nat) :=
  row ← seq 0 (shape raster).1;
  col ← seq 0 (shape raster).2;
  [(row, col)].

Definition pixel_entry (latlng_to_cell : Indexer) (raster : Raster) (resolution : Z)
    (px : nat * nat) : outcome (CellId * float64) :=
  let '(row, col) := px in
  let '(lon, lat) :=
    affine_mul (transform raster) (float_of_nat col, float_of_nat row) in
  h3_index ← latlng_to_cell lat lon resolution;
  mret (h3_index, item raster row col).

Definition append_pixel (latlng_to_cell : Indexer) (raster : Raster) (resolution : Z)
    (values : list (CellId * float64)) (px : nat * nat)
    : outcome (list (CellId * float64)) :=
  entry ← pixel_entry latlng_to_cell raster resolution px;
  mret (values ++ [entry]).

Definition pixel_values (latlng_to_cell : Indexer) (raster : Raster) (resolution : Z)
    : outcome (list (CellId * float64)) :=
  for_each (append_pixel latlng_to_cell raster resolution) [] (pixels raster).

Record Layer : Type := mkLayer {
  column : string;
  cells : list (CellId * float64)
}.

Definition aggregate (latlng_to_cell : Indexer) (raster : Raster)
    (resolution : Z) (field : string) : outcome Layer :=
  values ← pixel_values latlng_to_cell raster resolution;
  if decide (field = "h3_index") then Raise "ValueError"
  else mret (mkLayer field (groupby mean values)).

End B64.

(** ** Decidable equality of the tables, for evaluation on concrete inputs *)

Global Instance outcome_eq_dec `{EqDecision A} : EqDecision (outcome A).
Proof. solve_decision. Defined.
Global Instance Layer_eq_dec : EqDecision Layer.
Proof. solve_decision. Defined.
Global Instance Point_eq_dec : EqDecision Point.t.
Proof. solve_decision. Defined.
Global Instance Census_eq_dec : EqDecision Census.t.
Proof. solve_decision. Defined.
Global Instance Feature_eq_dec : EqDecision Feature.
Proof. solve_decision. Defined.
Global Instance GeoDataFrame_eq_dec : EqDecision GeoDataFrame.
Proof. solve_decision. Defined.
Global Instance CellSummary_eq_dec : EqDecision CellSummary.
Proof. solve_decision. Defined.

(** ** A small grid and small inputs to run the pipeline on *)

Module Demo.

(** The resolution as one lower-case hexadecimal digit. *)
Definition hexdigit (res : Z) : ascii :=
  ascii_of_nat (Z.to_nat res + (if decide (res < 10)%Z then 48 else 87)).

(** A grid of one-degree squares: the cell of a coordinate is named by the
    resolution digit followed by the floors of latitude and longitude.
    Resolutions outside 0..15 are refused. *)
Definition degree_grid : Indexer := λ lat lng res,
  if decide (0 ≤ res ≤ 15)%Z then
    Ok (String (hexdigit res) (pretty (Qfloor lat) +:+ "," +:+ pretty (Qfloor lng)))
  else Raise "H3ResDomainError".

(** North-up geotransform: origin (4°E, 51°N), pixels of 0.1°. *)
Definition tenth : Qc := Q2Qc (1 # 10).
Definition north_up : Affine :=
  mkAffine tenth 0 (Qc_of_Z 4) 0 (- tenth) (Qc_of_Z 51).

(** A raster from its rows of samples. *)
Definition raster_of (rows : list (list float)) (nd : option float) : Raster :=
  mkRaster (length rows, length (default [] (head rows)))
           (λ row col, default NaN (rows !! row ≫= (.!! col)))
           north_up nd.

Definition num (n : Z) : float := float_of_int n.



(** Two rows of two samples, one row on each side of the 51st parallel. *)
Definition two_cells : Raster :=
  raster_of [[num 0; num 1]; [num 10; num 11]] None.

Definition place (lng lat : Z) (t m f emp : Z) : Feature :=
  mkFeature (Point.mk (Qc_of_Z lng + tenth) (Qc_of_Z lat + tenth))
            (Census.mk t m f emp).

(** Two census points of one cell: totals 10 and 20, employed 3 and 7. *)
Definition two_villages : GeoDataFrame :=
  mkGeoDataFrame [place 4 50 10 6 4 3; place 4 50 20 9 11 7] None.

(** A cell nobody lives in but with employment recorded. *)
Definition ghost_town : GeoDataFrame :=
  mkGeoDataFrame [place 4 50 0 0 0 5] None.

(** The same squares behind the contract of [index]. *)
Definition checked_grid : Indexer :=
  index (λ res, bool_decide (0 ≤ res ≤ 15)%Z)
        (λ lat lng res,
           String (hexdigit res) (pretty (Qfloor lat) +:+ "," +:+ pretty (Qfloor lng))).

(** A one-pixel raster placed at 91°N. *)
Definition off_globe : Raster :=
  mkRaster (1%nat, 1%nat) (λ _ _, num 1)
           (mkAffine tenth 0 (Qc_of_Z 4) 0 (- tenth) (Qc_of_Z 91)) None.

(** The list [values] of [two_cells] and of [one_valid_two_nodata]. *)
Definition two_cells_values : list (CellId * float) :=
  [("751,4", num 0); ("751,4", num 1); ("750,4", num 10); ("750,4", num 11)].

(** A column of three numbers, and the two tables A and B of a small join. *)
Definition ramp : list float := [num 2; num 1; num 3].
Definition table_a : list (CellId * float) := [("c1", num 1); ("c2", num 2)].
Definition table_b : list (CellId * float) := [("c1", num 1)].

(** The grouped census table of [two_villages]. *)
Definition two_villages_summary : list CellSummary :=
  [mkCellSummary "750,4" (Census.mk 30 15 15 10) (Fin (Q2Qc (100 # 3)))].

(** A layer whose two cells hold the same value. *)
Definition flat : Layer := mkLayer "ndvi" [("750,4", num 3); ("751,4", num 3)].









(** A cell nobody lives in, with thirty million employed recorded. *)
Definition ghost_city : Census.t := Census.mk 0 0 0 30000000.

End Demo.

(** * Properties *)

(** Closed goals on concrete tables are settled by evaluating their decision
    procedure. *)
Ltac by_evaluation := apply (bool_decide_unpack _); vm_compute; exact I.

(** ** The outcome monad *)

Section outcome.
Context {A B : Type} (f : A → outcome B).

Lemma mapM_Ok (l : list A) (k : list B) :
  mapM f l = Ok k ↔ Forall2 (λ x y, f x = Ok y) l k.
Proof.
  revert k. induction l as [|x l IH]; intros k; simpl.
  - split; [intros [= <-]; constructor | by inversion 1].
  - unfold mbind, outcome_bind, mret, outcome_ret.
    destruct (f x) as [y|e] eqn:Hx.
    + destruct (mapM f l) as [k'|e] eqn:Hl.
      * split.
        -- intros [= <-]. constructor; [done | by apply IH].
        -- inversion 1 as [|? y' ? k'' Hy Hk]; subst.
           apply IH in Hk. congruence.
      * split; [done |].
        inversion 1 as [|? y' ? k'' Hy Hk]; subst.
        apply IH in Hk. congruence.
    + split; [done |]. inversion 1; congruence.
Qed.

Lemma mapM_Ok_length (l : list A) (k : list B) :
  mapM f l = Ok k → length k = length l.
Proof. intros H%mapM_Ok. symmetry. by eapply Forall2_length. Qed.

Lemma for_each_append (l : list A) (s : list B) :
  for_each (λ s x, y ← f x; mret (s ++ [y])) s l = (k ← mapM f l; mret (s ++ k)).
Proof.
  revert s. induction l as [|x l IH]; intros s.
  - cbn. by rewrite app_nil_r.
  - cbn. destruct (f x) as [y|e]; cbn; [|done].
    rewrite IH. destruct (mapM f l) as [k|e]; cbn; [|done].
    by rewrite <-app_assoc.
Qed.

Lemma mapM_Ok_lookup (l : list A) (k : list B) (i : nat) (x : A) :
  mapM f l = Ok k → l !! i = Some x → ∃ y, k !! i = Some y ∧ f x = Ok y.
Proof.
  intros Hk%mapM_Ok Hx.
  destruct (Forall2_lookup_l _ _ _ _ _ Hk Hx) as (y & ? & ?). eauto.
Qed.



Lemma mapM_Ok_elem (l : list A) (k : list B) (y : B) :
  mapM f l = Ok k → y ∈ k ↔ ∃ x, x ∈ l ∧ f x = Ok y.
Proof.
  intros H%mapM_Ok. induction H as [|x y' l k Hxy _ IH].
  - split; [by intros ?%elem_of_nil | by intros (? & ?%elem_of_nil & _)].
  - rewrite elem_of_cons, IH. split.
    + intros [->|(x' & ? & ?)]; [exists x | exists x']; by rewrite elem_of_cons; auto.
    + intros (x' & [->|?]%elem_of_cons & Hy); [left; congruence | right; eauto].
Qed.
End outcome.

(** ** Grouping *)

Section groupby.
Context {V W : Type}.
Implicit Types (rows : list (CellId * V)) (agg : list V → W) (k : CellId).

Lemma elem_of_group_keys rows k : k ∈ group_keys rows ↔ k ∈ rows.*1.
Proof.
  unfold group_keys. rewrite merge_sort_Permutation. apply elem_of_remove_dups.
Qed.

Lemma NoDup_group_keys rows : NoDup (group_keys rows).
Proof.
  unfold group_keys. rewrite merge_sort_Permutation. apply NoDup_remove_dups.
Qed.

Lemma groupby_keys agg rows : (groupby agg rows).*1 = group_keys rows.
Proof.
  unfold groupby. rewrite <-list_fmap_compose. apply list_fmap_id.
Qed.

Lemma elem_of_groupby agg rows k w :
  (k, w) ∈ groupby agg rows ↔ k ∈ rows.*1 ∧ w = agg (group_values k rows).
Proof.
  unfold groupby. rewrite list_elem_of_fmap. setoid_rewrite elem_of_group_keys.
  split.
  - intros (k' & [= -> ->] & Hk). done.
  - intros [Hk ->]. by exists k.
Qed.

Lemma elem_of_group_values rows k (v : V) :
  v ∈ group_values k rows ↔ (k, v) ∈ rows.
Proof.
  unfold group_values. rewrite list_elem_of_fmap. split.
  - intros ([k' v'] & -> & [Hk Hin]%list_elem_of_filter). simpl in *. by subst.
  - intros Hin. exists (k, v). split; [done |]. by apply list_elem_of_filter.
Qed.




End groupby.

(** ** Sums and means *)












(** ** Raster aggregation *)

Lemma length_bind_const {A B : Type} (f : A → list B) (l : list A) (n : nat) :
  (∀ x, length (f x) = n) → length (l ≫= f) = (length l * n)%nat.
Proof.
  intros Hf. induction l as [|x l IH]; [done |].
  rewrite bind_cons, length_app, Hf, IH. simpl. lia.
Qed.

Lemma bind_singleton_fmap {A B : Type} (g : A → B) (l : list A) :
  l ≫= (λ x, [g x]) = g <$> l.
Proof. induction l as [|x l IH]; [done |]. by rewrite bind_cons, IH. Qed.

(** The pixel (row, col) is the (row·cols + col)-th of the two loops. *)
Lemma grid_lookup (n m row col : nat) :
  (row < n)%nat → (col < m)%nat →
  (row ← seq 0 n; col ← seq 0 m; [(row, col)]) !! (row * m + col)%nat
  = Some (row, col).
Proof.
  intros Hrow Hcol.
  enough (∀ s i, (i < n)%nat →
            (row ← seq s n; col ← seq 0 m; [(row, col)]) !! (i * m + col)%nat
            = Some ((s + i)%nat, col)) as Hgen by exact (Hgen 0%nat row Hrow).
  clear row Hrow. induction n as [|n IH]; intros s i Hi; [lia |].
  cbn [seq]. rewrite bind_cons, bind_singleton_fmap.
  destruct i as [|i].
  - rewrite lookup_app_l by (rewrite length_fmap, length_seq; lia).
    rewrite list_lookup_fmap, lookup_seq_lt by lia. simpl. do 2 f_equal. lia.
  - rewrite lookup_app_r by (rewrite length_fmap, length_seq; lia).
    rewrite length_fmap, length_seq.
    replace (S i * m + col - m)%nat with (i * m + col)%nat by lia.
    rewrite IH by lia. do 2 f_equal. lia.
Qed.

Lemma length_grid (n m : nat) :
  length (row ← seq 0 n; col ← seq 0 m; [(row, col)]) = (n * m)%nat.
Proof.
  rewrite (length_bind_const _ _ m), length_seq; [done |].
  intros row. rewrite (length_bind_const _ _ 1%nat), length_seq; [lia | done].
Qed.

Lemma elem_of_grid (n m row col : nat) :
  (row, col) ∈ (row ← seq 0 n; col ← seq 0 m; [(row, col)]) ↔
  (row < n)%nat ∧ (col < m)%nat.
Proof.
  rewrite list_elem_of_bind. split.
  - intros (row' & (col' & Hpx & Hcol)%list_elem_of_bind & Hrow).
    apply list_elem_of_singleton in Hpx as [= -> ->].
    apply elem_of_seq in Hrow, Hcol. lia.
  - intros [Hrow Hcol]. exists row. split; [|apply elem_of_seq; lia].
    apply list_elem_of_bind. exists col. split; [|apply elem_of_seq; lia].
    by apply list_elem_of_singleton.
Qed.


Lemma elem_of_pixels (raster : Raster) (row col : nat) :
  (row, col) ∈ pixels raster ↔
  (row < (shape raster).1)%nat ∧ (col < (shape raster).2)%nat.
Proof. apply elem_of_grid. Qed.

Section raster.
Variable latlng_to_cell : Indexer.
Implicit Types (raster : Raster) (resolution : Z) (field : string).
Implicit Types (values : list (CellId * float)) (k : CellId).


Lemma pixel_entry_Raise raster resolution px e :
  pixel_entry latlng_to_cell raster resolution px = Raise e →
  ∃ lat lon, latlng_to_cell lat lon resolution = Raise e.
Proof.
  unfold pixel_entry. destruct px as [row col].
  destruct (affine_mul _ _) as [lon lat].
  destruct (latlng_to_cell lat lon resolution) eqn:Hcell; cbn; [done |].
  intros [= <-]. eauto.
Qed.

Lemma pixel_values_mapM raster resolution :
  pixel_values latlng_to_cell raster resolution
  = mapM (pixel_entry latlng_to_cell raster resolution) (pixels raster).
Proof.
  unfold pixel_values.
  change (append_pixel latlng_to_cell raster resolution)
    with (λ values px, entry ← pixel_entry latlng_to_cell raster resolution px;
                       mret (values ++ [entry])).
  rewrite for_each_append. by destruct (mapM _ _).
Qed.

Lemma aggregate_Ok raster resolution field values :
  pixel_values latlng_to_cell raster resolution = Ok values →
  field ≠ "h3_index" →
  aggregate latlng_to_cell raster resolution field
  = Ok (mkLayer field (groupby mean values)).
Proof. unfold aggregate. intros -> Hfield. cbn. by rewrite decide_False. Qed.

Lemma aggregate_ValueError raster resolution values :
  pixel_values latlng_to_cell raster resolution = Ok values →
  aggregate latlng_to_cell raster resolution "h3_index" = Raise "ValueError".
Proof. unfold aggregate. by intros ->. Qed.

Lemma elem_of_pixel_values raster resolution values k v :
  pixel_values latlng_to_cell raster resolution = Ok values →
  (k, v) ∈ values ↔
  ∃ px, px ∈ pixels raster ∧ pixel_entry latlng_to_cell raster resolution px = Ok (k, v).
Proof. rewrite pixel_values_mapM. apply mapM_Ok_elem. Qed.






End raster.

(** ** Raster aggregation in binary64 *)

Lemma Prim2SF_inj (x y : B64.float64) : Prim2SF x = Prim2SF y → x = y.
Proof.
  intros Hxy. rewrite <-(SF2Prim_Prim2SF x), <-(SF2Prim_Prim2SF y).
  by rewrite Hxy.
Qed.

Global Instance spec_float_eq_dec : EqDecision spec_float.
Proof. solve_decision. Defined.
Global Instance float64_eq_dec : EqDecision B64.float64.
Proof.
  intros x y. destruct (decide (Prim2SF x = Prim2SF y)) as [Hxy|Hxy].
  - left. by apply Prim2SF_inj.
  - right. by intros ->.
Defined.














Section raster64.
Variable latlng_to_cell : B64.Indexer.
Implicit Types (raster : B64.Raster) (resolution : Z) (field : string).
Implicit Types (values : list (CellId * B64.float64)) (k : CellId).


(** The call of the indexer at pixel (row, col): the coordinates are those
    of [transform * (col, row)], which returns the longitude first. *)
Local Abbreviation cell_at raster resolution row col :=
  (latlng_to_cell
     (B64.float_of_nat col * B64.coef_d (B64.transform raster)
      + B64.float_of_nat row * B64.coef_e (B64.transform raster)
      + B64.coef_f (B64.transform raster))%float
     (B64.float_of_nat col * B64.coef_a (B64.transform raster)
      + B64.float_of_nat row * B64.coef_b (B64.transform raster)
      + B64.coef_c (B64.transform raster))%float
     resolution).






End raster64.

(** ** Census records *)

Lemma int32_small (z : Z) : fits_int32 z → int32 z = z.
Proof. unfold fits_int32, int32. intros Hz. rewrite Z.mod_small by lia. lia. Qed.

Lemma fdiv_int_zero (p : Z) :
  fdiv (float_of_int p) (float_of_int 0)
  = match (p ?= 0)%Z with
    | Gt => PInf
    | Eq => NaN
    | Lt => NInf
    end.
Proof.
  unfold float_of_int, fdiv.
  rewrite decide_True by apply Z2Qc_inj_0.
  destruct (Z.compare_spec p 0) as [He|He|He].
  - rewrite He. by rewrite decide_True by apply Z2Qc_inj_0.
  - rewrite decide_False.
    2:{ rewrite <-Z2Qc_inj_0. intros ?%Z2Qc_inj. lia. }
    rewrite decide_False; [done |].
    rewrite <-Z2Qc_inj_0, <-Z2Qc_inj_lt. lia.
  - rewrite decide_False.
    2:{ rewrite <-Z2Qc_inj_0. intros ?%Z2Qc_inj. lia. }
    rewrite decide_True; [done |].
    rewrite <-Z2Qc_inj_0, <-Z2Qc_inj_lt. lia.
Qed.

Lemma emp_perc_zero_total (c : Census.t) :
  Census.T c = 0%Z →
  emp_perc c = match (int32 (Census.EMP c * 100) ?= 0)%Z with
               | Gt => PInf
               | Eq => NaN
               | Lt => NInf
               end.
Proof. intros HT. unfold emp_perc. rewrite HT. apply fdiv_int_zero. Qed.

Lemma emp_perc_small (c : Census.t) :
  fits_int32 (Census.EMP c * 100) →
  emp_perc c = fdiv (float_of_int (Census.EMP c * 100)) (float_of_int (Census.T c)).
Proof. intros Hc. unfold emp_perc. by rewrite int32_small. Qed.

Section census.
Variable latlng_to_cell : Indexer.
Implicit Types (σ : heap) (df : GeoDataFrame) (resolution : Z).
Implicit Types (col : list CellId) (population_data : loc).

Lemma assign_h3_to_population_Ok σ population_data df resolution col :
  σ !! population_data = Some df →
  h3_column latlng_to_cell df resolution = Ok col →
  assign_h3_to_population latlng_to_cell population_data resolution σ
  = Ok (population_data,
        <[population_data := mkGeoDataFrame (features df) (Some col)]> σ).
Proof. unfold assign_h3_to_population. by intros -> ->. Qed.

Lemma census_cell_Ok σ population_data df resolution col :
  σ !! population_data = Some df →
  h3_column latlng_to_cell df resolution = Ok col →
  census_cell latlng_to_cell population_data resolution σ
  = Ok (add_emp_perc (groupby sum_census (zip col (properties <$> features df))),
        <[population_data := mkGeoDataFrame (features df) (Some col)]> σ).
Proof.
  intros Hdf Hcol. unfold census_cell.
  rewrite (assign_h3_to_population_Ok _ _ _ _ _ Hdf Hcol). cbn.
  by rewrite lookup_insert_eq.
Qed.

Lemma h3_column_length df resolution col :
  h3_column latlng_to_cell df resolution = Ok col →
  length col = length (features df).
Proof. apply mapM_Ok_length. Qed.

Lemma census_rows_keys df col k :
  length col = length (features df) →
  k ∈ h3 <$> add_emp_perc (groupby sum_census (zip col (properties <$> features df)))
  ↔ k ∈ col.
Proof.
  intros Hlen. unfold add_emp_perc. rewrite <-list_fmap_compose.
  change (h3 ∘ _) with (fst : CellId * Census.t → CellId).
  rewrite groupby_keys, elem_of_group_keys, fst_zip; [done |].
  rewrite length_fmap. lia.
Qed.


(** C8 (the census cell), as amended: a group whose summed total is zero
    raises nothing; its employed percentage is +infinity when the summed
    employed count is positive, -infinity when it is negative and NaN when
    it is zero, as long as a hundred times that count fits in 32 bits.
    Beyond that, in a column of 32-bit sums, the product wraps around and
    it is the sign of the wrapped product that decides. *)
Theorem emp_perc_of_empty_total σ population_data df resolution col :
  σ !! population_data = Some df →
  h3_column latlng_to_cell df resolution = Ok col →
  ∃ rows σ',
    census_cell latlng_to_cell population_data resolution σ = Ok (rows, σ')
    ∧ ∀ r, r ∈ rows → Census.T (totals r) = 0%Z →
        (fits_int32 (Census.EMP (totals r) * 100) →
         EMP_PERC r = match (Census.EMP (totals r) ?= 0)%Z with
                      | Gt => PInf
                      | Eq => NaN
                      | Lt => NInf
                      end)
        ∧ ((∀ r', r' ∈ rows → fits_int32 (Census.EMP (totals r'))) →
           EMP_PERC r = match (int32 (Census.EMP (totals r) * 100) ?= 0)%Z with
                        | Gt => PInf
                        | Eq => NaN
                        | Lt => NInf
                        end).
Proof.
  intros Hdf Hcol. eexists _, _. split; [by apply census_cell_Ok |].
  unfold add_emp_perc. intros r ([k c] & -> & _)%list_elem_of_fmap. simpl.
  intros HT. rewrite (emp_perc_zero_total _ HT). split; [|done].
  intros Hsmall. rewrite int32_small by done.
  destruct (Z.compare_spec (Census.EMP c * 100) 0),
           (Z.compare_spec (Census.EMP c) 0); done || lia.
Qed.

(** C10 (assign_h3_to_population), as amended: the function stores the
    ['h3_index'] column in the frame the caller passed and returns that
    same frame; the rows of the frame and every other object are left as
    they were. *)
Theorem assign_h3_in_place σ population_data df resolution col :
  σ !! population_data = Some df →
  h3_column latlng_to_cell df resolution = Ok col →
  ∃ σ',
    assign_h3_to_population latlng_to_cell population_data resolution σ
    = Ok (population_data, σ')
    ∧ σ' !! population_data = Some (mkGeoDataFrame (features df) (Some col))
    ∧ ∀ other, other ≠ population_data → σ' !! other = σ !! other.
Proof.
  intros Hdf Hcol. eexists. split; [by apply assign_h3_to_population_Ok |].
  split; [apply lookup_insert_eq |].
  intros other Hother. by apply lookup_insert_ne.
Qed.
End census.

(** ** Joining *)

Section join.
Context `{Row A, Row B}.
Implicit Types (left : list A) (right : list B).

Lemma elem_of_merge left right (a : A) (ob : option B) :
  (a, ob) ∈ merge left right ↔
  a ∈ left ∧ match ob with
             | Some b => b ∈ right ∧ key b = key a
             | None => ∀ b, b ∈ right → key b ≠ key a
             end.
Proof.
  unfold merge. rewrite list_elem_of_bind. split.
  - intros (a' & Hin & Ha').
    destruct (filter (λ b, key b = key a') right) as [|b0 bs] eqn:Hf.
    + apply list_elem_of_singleton in Hin as [= -> ->]. split; [done |].
      intros b Hb Hkey. eapply (filter_nil_not_elem_of _ _ b); eauto.
    + rewrite <-Hf in Hin. apply list_elem_of_fmap in Hin as (b & [= -> ->] & Hb).
      by apply list_elem_of_filter in Hb as [? ?].
  - intros [Ha Hob]. exists a. split; [|done].
    destruct ob as [b|].
    + destruct Hob as [Hb Hkey].
      assert (b ∈ filter (λ b, key b = key a) right) as Hbf
        by (by apply list_elem_of_filter).
      destruct (filter (λ b, key b = key a) right) as [|b0 bs] eqn:Hf;
        [by apply elem_of_nil in Hbf |].
      apply list_elem_of_fmap. by exists b.
    + destruct (filter (λ b, key b = key a) right) as [|b0 bs] eqn:Hf;
        [by apply list_elem_of_singleton |].
      assert (b0 ∈ filter (λ b, key b = key a) right) as Hb0 by (rewrite Hf; left).
      apply list_elem_of_filter in Hb0 as [Hkey Hb0]. by destruct (Hob b0).
Qed.

Lemma elem_of_join left right (a : A) (b : B) :
  (a, b) ∈ join left right ↔
  a ∈ left ∧ b ∈ right ∧ key b = key a ∧ hasna a = false ∧ hasna b = false.
Proof.
  unfold join, dropna. rewrite list_elem_of_bind. split.
  - intros ([a' [b'|]] & Hin & Hm); simpl in Hin; [|by apply elem_of_nil in Hin].
    destruct (hasna a' || hasna b') eqn:Hna; [by apply elem_of_nil in Hin |].
    apply list_elem_of_singleton in Hin as [= -> ->].
    apply elem_of_merge in Hm as (? & ? & ?).
    apply orb_false_iff in Hna as [? ?]. done.
  - intros (Ha & Hb & Hkey & Hna & Hnb). exists (a, Some b). split.
    + simpl. rewrite Hna, Hnb. by apply list_elem_of_singleton.
    + by apply elem_of_merge.
Qed.

(** C5 (merge, dropna): the join holds exactly the pairs of a left row and
    a right row of the same cell in which no column is empty or NaN; so no
    joined row has an empty column, and a cell absent from the right table
    has no row in the result.  When the two tables hold no NaN, the cells of
    the join are exactly the cells present in both. *)
Theorem join_keeps_complete_matches left right :
  (∀ a b, (a, b) ∈ join left right ↔
          a ∈ left ∧ b ∈ right ∧ key b = key a
          ∧ hasna a = false ∧ hasna b = false)
  ∧ (∀ r, r ∈ join left right →
          hasna r = false ∧ key r ∈ key <$> left ∧ key r ∈ key <$> right)
  ∧ (∀ k, k ∈ key <$> left → k ∉ key <$> right →
          k ∉ key <$> join left right)
  ∧ ((∀ a, a ∈ left → hasna a = false) → (∀ b, b ∈ right → hasna b = false) →
     ∀ k, k ∈ key <$> join left right ↔ k ∈ key <$> left ∧ k ∈ key <$> right).
Proof.
  split; [apply elem_of_join |]. split; [|split].
  - intros [a b] (Ha & Hb & Hkey & Hna & Hnb)%elem_of_join. simpl.
    rewrite Hna, Hnb. split; [done |]. split.
    + apply list_elem_of_fmap. by exists a.
    + rewrite <-Hkey. apply list_elem_of_fmap. by exists b.
  - intros k _ Hright ([a b] & -> & (_ & Hb & Hk & _)%elem_of_join)%list_elem_of_fmap.
    apply Hright. simpl. rewrite <-Hk. apply list_elem_of_fmap. by exists b.
  - intros Hleft Hright k. rewrite !list_elem_of_fmap. split.
    + intros ([a b] & -> & (Ha & Hb & Hk & _)%elem_of_join). simpl.
      split; [by exists a | by exists b].
    + intros [(a & -> & Ha) (b & Hk & Hb)]. exists (a, b). split; [done |].
      apply elem_of_join. repeat split; auto.
Qed.

Lemma join_disjoint_keys left right :
  (∀ a b, a ∈ left → b ∈ right → key b ≠ key a) → join left right = [].
Proof.
  intros Hdisj. apply elem_of_nil_inv.
  intros [a b] (Ha & Hb & Hkey & _)%elem_of_join. by destruct (Hdisj a b).
Qed.
End join.

(** X13 (the merge cell): the rows of the unified table are exactly the
    triples of a census row, an NDVI row and a density row of one cell, none
    of them holding NaN. *)
Lemma elem_of_merge_cell population_data ndvi_df bel_pop_density
    (s : CellSummary) (n p : CellId * float) :
  (s, n, p) ∈ merge_cell population_data ndvi_df bel_pop_density ↔
  s ∈ population_data ∧ n ∈ cells ndvi_df ∧ p ∈ cells bel_pop_density
  ∧ n.1 = h3 s ∧ p.1 = h3 s
  ∧ isnan (EMP_PERC s) = false ∧ isnan n.2 = false ∧ isnan p.2 = false.
Proof.
  unfold merge_cell. rewrite !elem_of_join. simpl.
  rewrite orb_false_iff. tauto.
Qed.

Section resolutions.
Variable latlng_to_cell : Indexer.

(** A cell index carries its resolution: one index is never returned for
    two resolutions. *)
Hypothesis index_resolution : ∀ lat lng lat' lng' res res' k,
  latlng_to_cell lat lng res = Ok k →
  latlng_to_cell lat' lng' res' = Ok k →
  res = res'.

Lemma census_cell_keys σ population_data resolution rows σ' k :
  census_cell latlng_to_cell population_data resolution σ = Ok (rows, σ') →
  k ∈ h3 <$> rows →
  ∃ lat lng, latlng_to_cell lat lng resolution = Ok k.
Proof.
  intros Hcell Hk.
  destruct (σ !! population_data) as [df|] eqn:Hdf.
  2:{ unfold census_cell, assign_h3_to_population in Hcell.
      by rewrite Hdf in Hcell. }
  destruct (h3_column latlng_to_cell df resolution) as [col|] eqn:Hcol.
  2:{ unfold census_cell, assign_h3_to_population in Hcell.
      by rewrite Hdf, Hcol in Hcell. }
  rewrite (census_cell_Ok _ _ _ _ _ _ Hdf Hcol) in Hcell.
  injection Hcell as <- <-.
  apply census_rows_keys in Hk; [|by eapply h3_column_length].
  apply (mapM_Ok_elem _ _ _ _ Hcol) in Hk as (ft & _ & Hft). eauto.
Qed.

Lemma aggregate_keys raster resolution field df k :
  aggregate latlng_to_cell raster resolution field = Ok df →
  k ∈ (cells df).*1 →
  ∃ lat lng, latlng_to_cell lat lng resolution = Ok k.
Proof.
  unfold aggregate.
  destruct (pixel_values latlng_to_cell raster resolution) as [values|] eqn:Hv;
    [|done].
  cbn. case_decide; [done |]. intros [= <-] Hk. simpl in Hk.
  rewrite groupby_keys, elem_of_group_keys in Hk.
  apply list_elem_of_fmap in Hk as ([k' v] & -> & Hin).
  apply (elem_of_pixel_values _ _ _ _ _ _ Hv) in Hin as ([row col] & _ & He).
  unfold pixel_entry in He. destruct (affine_mul _ _) as [lon lat].
  destruct (latlng_to_cell lat lon resolution) as [c|] eqn:Hc; [|done].
  injection He as <- _. eauto.
Qed.

(** C9 (merge, dropna), as amended: nothing compares the resolutions of the
    tables being joined and nothing is raised; a census table and a raster
    layer indexed at different resolutions share no cell, and their join is
    the empty table. *)
Theorem join_of_mixed_resolutions σ population_data res1 rows σ'
    raster res2 field df :
  census_cell latlng_to_cell population_data res1 σ = Ok (rows, σ') →
  aggregate latlng_to_cell raster res2 field = Ok df →
  res1 ≠ res2 →
  join rows (cells df) = [].
Proof.
  intros Hcensus Hlayer Hres. apply join_disjoint_keys.
  intros a b Ha Hb Hkey. apply Hres.
  destruct (census_cell_keys _ _ _ _ _ (key a) Hcensus) as (lat & lng & H1).
  { apply list_elem_of_fmap. by exists a. }
  destruct (aggregate_keys _ _ _ _ (key b) Hlayer) as (lat' & lng' & H2).
  { apply list_elem_of_fmap. by exists b. }
  rewrite Hkey in H2. eauto.
Qed.
End resolutions.

(** ** Normalisation *)

(** [x ≤ y] for floats that are not NaN: [y < x] does not hold. *)
Lemma fltb_irrefl (x : float) : fltb x x = false.
Proof.
  destruct x; simpl; try done.
  apply bool_decide_eq_false, Qcle_not_lt, Qcle_refl.
Qed.

Lemma fltb_asym (x y : float) : fltb x y = true → fltb y x = false.
Proof.
  destruct x, y; simpl; try done.
  rewrite bool_decide_eq_true, bool_decide_eq_false.
  intros ?. by apply Qcle_not_lt, Qclt_le_weak.
Qed.

Lemma fle_trans (x y z : float) :
  isnan y = false → fltb y x = false → fltb z y = false → fltb z x = false.
Proof.
  destruct x, y, z; simpl; try done.
  rewrite !bool_decide_eq_false. intros _ Hxy%Qcnot_lt_le Hyz%Qcnot_lt_le.
  apply Qcle_not_lt. by etrans.
Qed.

Lemma fle_antisym (x y : float) :
  isnan x = false → isnan y = false →
  fltb y x = false → fltb x y = false → x = y.
Proof.
  destruct x, y; simpl; try done.
  rewrite !bool_decide_eq_false. intros _ _ Hxy%Qcnot_lt_le Hyx%Qcnot_lt_le.
  f_equal. by apply Qcle_antisym.
Qed.

Lemma foldl_min_lower (v : float) (vs : list float) :
  let m := foldl (λ m x, if fltb x m then x else m) v vs in
  Forall (λ x, isnan x = false) (v :: vs) →
  isnan m = false ∧ Forall (λ x, fltb x m = false) (v :: vs).
Proof.
  revert v. induction vs as [|y vs IH]; intros v m Hvalid.
  - apply Forall_cons in Hvalid as [Hv _]. split; [done |].
    constructor; [apply fltb_irrefl | constructor].
  - apply Forall_cons in Hvalid as [Hv [Hy Hvs]%Forall_cons]. subst m. simpl.
    set (m' := if fltb y v then y else v).
    assert (isnan m' = false) as Hm' by (subst m'; by destruct (fltb y v)).
    destruct (IH m' (Forall_cons_2 _ _ _ Hm' Hvs)) as [Hm [Hmm' Hrest]%Forall_cons].
    split; [done |].
    assert (fltb v m' = false ∧ fltb y m' = false) as [Hvm' Hym'].
    { subst m'. destruct (fltb y v) eqn:Hyv.
      - split; [by apply fltb_asym | apply fltb_irrefl].
      - split; [apply fltb_irrefl | done]. }
    repeat constructor;
      [apply (fle_trans _ m'); done.. | done].
Qed.

Lemma foldl_max_upper (v : float) (vs : list float) :
  let m := foldl (λ m x, if fltb m x then x else m) v vs in
  Forall (λ x, isnan x = false) (v :: vs) →
  isnan m = false ∧ Forall (λ x, fltb m x = false) (v :: vs).
Proof.
  revert v. induction vs as [|y vs IH]; intros v m Hvalid.
  - apply Forall_cons in Hvalid as [Hv _]. split; [done |].
    constructor; [apply fltb_irrefl | constructor].
  - apply Forall_cons in Hvalid as [Hv [Hy Hvs]%Forall_cons]. subst m. simpl.
    set (m' := if fltb v y then y else v).
    assert (isnan m' = false) as Hm' by (subst m'; by destruct (fltb v y)).
    destruct (IH m' (Forall_cons_2 _ _ _ Hm' Hvs)) as [Hm [Hmm' Hrest]%Forall_cons].
    split; [done |].
    assert (fltb m' v = false ∧ fltb m' y = false) as [Hvm' Hym'].
    { subst m'. destruct (fltb v y) eqn:Hvy.
      - split; [by apply fltb_asym | apply fltb_irrefl].
      - split; [apply fltb_irrefl | done]. }
    repeat constructor;
      [apply (fle_trans _ m'); done.. | done].
Qed.

Lemma valid_not_nan (xs : list float) : Forall (λ x, isnan x = false) (valid xs).
Proof. apply Forall_forall. by intros x [? _]%list_elem_of_filter. Qed.

(** When the extremes coincide, every entry that is not NaN is that value. *)
Lemma series_constant (s : list float) (x : float) :
  series_max s = series_min s → x ∈ s → isnan x = false → x = series_min s.
Proof.
  unfold series_max, series_min. intros Heq Hx Hnan.
  assert (x ∈ valid s) as Hxv by (by apply list_elem_of_filter).
  pose proof (valid_not_nan s) as Hvalid.
  destruct (valid s) as [|v vs]; [by apply elem_of_nil in Hxv |].
  destruct (foldl_min_lower v vs Hvalid) as [Hmin Hlow].
  destruct (foldl_max_upper v vs Hvalid) as [_ Hup].
  rewrite Heq in Hup.
  rewrite Forall_forall in Hlow, Hup.
  apply fle_antisym; [done | done | by apply Hup | by apply Hlow].
Qed.

Lemma fdiv_NaN_r (x : float) : fdiv x NaN = NaN.
Proof. by destruct x. Qed.

Lemma fsub_diag (x : float) : fsub x x = Fin 0 ∨ fsub x x = NaN.
Proof.
  destruct x as [q| | |]; simpl; auto.
  left. unfold fsub. simpl. by rewrite Qcplus_opp_r.
Qed.

Lemma normalize_constant (s : list float) :
  series_max s = series_min s → Forall (λ v, v = NaN) (normalize s).
Proof.
  intros Heq. unfold normalize. rewrite Heq.
  apply Forall_fmap, Forall_forall. intros x Hx. simpl.
  destruct (fsub_diag (series_min s)) as [Hd|Hd]; rewrite Hd;
    [|apply fdiv_NaN_r].
  destruct (isnan x) eqn:Hnan; [by destruct x |].
  rewrite <-(series_constant s x Heq Hx Hnan), (series_constant s x Heq Hx Hnan), Hd.
  unfold fdiv. by rewrite !decide_True.
Qed.

(** C7 (min-max normalisation): on a column whose maximum equals its minimum
    nothing is raised and every row of the result is NaN, the keys and the
    number of rows being kept; no row is an infinity. *)
Theorem normalize_constant_column (df : Layer) :
  series_max (cells df).*2 = series_min (cells df).*2 →
  (cells (normalize_layer df)).*1 = (cells df).*1
  ∧ (cells (normalize_layer df)).*2 = normalize (cells df).*2
  ∧ Forall (λ r, r.2 = NaN) (cells (normalize_layer df)).
Proof.
  intros Heq. unfold normalize_layer. simpl.
  assert (length (cells df).*1 = length (normalize (cells df).*2)) as Hlen
    by (unfold normalize; by rewrite !length_fmap).
  split; [apply fst_zip; lia |]. split; [apply snd_zip; lia |].
  cut (Forall (λ v, v = NaN) (zip (cells df).*1 (normalize (cells df).*2)).*2);
    [by rewrite Forall_fmap |].
  rewrite snd_zip by lia. by apply normalize_constant.
Qed.

(** ** The indexer's contract *)

Lemma mapM_Raise {A B : Type} (f : A → outcome B) (l : list A) (x : A) (e : exception) :
  x ∈ l → f x = Raise e →
  ∃ x' e', x' ∈ l ∧ f x' = Raise e' ∧ mapM f l = Raise e'.
Proof.
  induction l as [|y l IH]; [by intros ?%elem_of_nil |].
  intros Hx Hfx. simpl. unfold mbind, outcome_bind.
  destruct (f y) as [b|e0] eqn:Hy.
  - apply elem_of_cons in Hx as [->|Hx]; [congruence |].
    destruct (IH Hx Hfx) as (x' & e' & Hx' & Hfx' & Hl).
    exists x', e'. split; [by right |]. split; [done |].
    change ((mapM f l ≫= λ k, mret (b :: k)) = Raise e'). by rewrite Hl.
  - exists y, e0. split; [by left | done].
Qed.

Section contract.
Variable supported : Z → bool.
Variable cell_of : Qc → Qc → Z → CellId.

Lemma index_Raise lat lon resolution e :
  index supported cell_of lat lon resolution = Raise e →
  e = "InvalidCoordinate" ∨ e = "InvalidResolution".
Proof.
  unfold index. case_decide; [|intros [= <-]; by left].
  destruct (supported resolution); [done |]. intros [= <-]. by right.
Qed.

Lemma index_invalid lat lon resolution :
  ¬ valid_coordinate lat lon ∨ supported resolution = false →
  ∃ e, index supported cell_of lat lon resolution = Raise e.
Proof.
  unfold index. intros [Hc|Hr].
  - rewrite decide_False by done. eauto.
  - case_decide; [rewrite Hr |]; eauto.
Qed.

(** C6 (index): a coordinate outside the valid ranges signals
    [InvalidCoordinate] and an unsupported resolution signals
    [InvalidResolution]; a cell is returned only for a valid input, and is
    the cell of that input as given.  At both call sites the signal
    leaves the function: [aggregate] and [assign_h3_to_population] return
    no table once a pixel or a record is refused. *)
Theorem index_signals_invalid_input lat lon resolution :
  let latlng_to_cell := index supported cell_of in
  (¬ valid_coordinate lat lon →
     latlng_to_cell lat lon resolution = Raise "InvalidCoordinate")
  ∧ (valid_coordinate lat lon → supported resolution = false →
     latlng_to_cell lat lon resolution = Raise "InvalidResolution")
  ∧ (∀ k, latlng_to_cell lat lon resolution = Ok k →
       valid_coordinate lat lon ∧ supported resolution = true
       ∧ k = cell_of lat lon resolution)
  ∧ (∀ raster field row col,
       (row, col) ∈ pixels raster →
       affine_mul (transform raster) (Qc_of_nat col, Qc_of_nat row) = (lon, lat) →
       ¬ valid_coordinate lat lon ∨ supported resolution = false →
       ∃ e, aggregate latlng_to_cell raster resolution field = Raise e
            ∧ (e = "InvalidCoordinate" ∨ e = "InvalidResolution"))
  ∧ (∀ (σ : heap) population_data df ft,
       σ !! population_data = Some df →
       ft ∈ features df →
       Point.y (geometry ft) = lat → Point.x (geometry ft) = lon →
       ¬ valid_coordinate lat lon ∨ supported resolution = false →
       ∃ e, assign_h3_to_population latlng_to_cell population_data resolution σ
            = Raise e
            ∧ (e = "InvalidCoordinate" ∨ e = "InvalidResolution")).
Proof.
  intros latlng_to_cell. subst latlng_to_cell.
  split; [|split; [|split; [|split]]].
  - intros Hc. unfold index. by rewrite decide_False.
  - intros Hc Hr. unfold index. by rewrite decide_True, Hr.
  - intros k. unfold index. case_decide; [|done].
    destruct (supported resolution); [|done]. by intros [= <-].
  - intros raster field row col Hpx Haff Hbad.
    destruct (index_invalid lat lon resolution Hbad) as [e He].
    assert (pixel_entry (index supported cell_of) raster resolution (row, col)
            = Raise e) as Hentry.
    { unfold pixel_entry. rewrite Haff. by rewrite He. }
    destruct (mapM_Raise (pixel_entry (index supported cell_of) raster resolution)
                _ _ _ Hpx Hentry) as ([row' col'] & e' & _ & He' & Hm).
    exists e'. split.
    + unfold aggregate. by rewrite pixel_values_mapM, Hm.
    + apply pixel_entry_Raise in He' as (lat' & lon' & He').
      by eapply index_Raise.
  - intros σ population_data df ft Hdf Hft <- <- Hbad.
    destruct (index_invalid _ _ resolution Hbad) as [e He].
    destruct (mapM_Raise
                (λ ft, index supported cell_of (Point.y (geometry ft))
                             (Point.x (geometry ft)) resolution)
                _ _ _ Hft He) as (ft' & e' & _ & He' & Hm).
    exists e'. split.
    + unfold assign_h3_to_population, h3_column. by rewrite Hdf, Hm.
    + by eapply index_Raise.
Qed.
End contract.

(** ** The demo grid *)

Lemma hexdigit_inj (res res' : Z) :
  (0 ≤ res ≤ 15)%Z → (0 ≤ res' ≤ 15)%Z →
  Demo.hexdigit res = Demo.hexdigit res' → res = res'.
Proof.
  unfold Demo.hexdigit. intros Hres Hres' Heq.
  apply (f_equal nat_of_ascii) in Heq.
  rewrite !nat_ascii_embedding in Heq by (repeat case_decide; lia).
  repeat case_decide; lia.
Qed.

Lemma degree_grid_resolution lat lng lat' lng' res res' k :
  Demo.degree_grid lat lng res = Ok k →
  Demo.degree_grid lat' lng' res' = Ok k →
  res = res'.
Proof.
  unfold Demo.degree_grid. repeat case_decide; try done.
  intros [= <-] [= Hdigit _]. by apply hexdigit_inj.
Qed.


(** ** The theorems on concrete inputs *)



(** The sum of a group is compensated: the two units that a plain running
    sum loses next to 1e16 are kept. *)
Example compensated_mean :
  B64.mean [1e16%float; 1%float; 1%float] = 3333333333333334%float
  ∧ ((1e16 + 1 + 1) / 3)%float = 3333333333333333.5%float.
Proof. split; by vm_compute. Qed.






Lemma ghost_town_percentage :
  census_cell Demo.degree_grid 1%positive 7 {[1%positive := Demo.ghost_town]}
  = Ok ([mkCellSummary "750,4" (Census.mk 0 0 0 5) PInf],
        {[1%positive := mkGeoDataFrame (features Demo.ghost_town) (Some ["750,4"])]}).
Proof. by_evaluation. Qed.

(** Thirty million employed and nobody counted: the 32-bit product
    3,000,000,000 wraps to -1,294,967,296 and the percentage is -infinity. *)
Example ghost_city_percentage :
  int32 (Census.EMP Demo.ghost_city * 100) = (-1294967296)%Z
  ∧ emp_perc Demo.ghost_city = NInf.
Proof. split; by_evaluation. Qed.

Lemma emp_perc_of_empty_total_witness :
  ({[1%positive := Demo.ghost_town]} : heap) !! 1%positive = Some Demo.ghost_town
  ∧ h3_column Demo.degree_grid Demo.ghost_town 7 = Ok ["750,4"]
  ∧ ∃ rows σ',
      census_cell Demo.degree_grid 1%positive 7 {[1%positive := Demo.ghost_town]}
      = Ok (rows, σ')
      ∧ ∀ r, r ∈ rows → Census.T (totals r) = 0%Z →
          (fits_int32 (Census.EMP (totals r) * 100) →
           EMP_PERC r = match (Census.EMP (totals r) ?= 0)%Z with
                        | Gt => PInf
                        | Eq => NaN
                        | Lt => NInf
                        end)
          ∧ ((∀ r', r' ∈ rows → fits_int32 (Census.EMP (totals r'))) →
             EMP_PERC r = match (int32 (Census.EMP (totals r) * 100) ?= 0)%Z with
                          | Gt => PInf
                          | Eq => NaN
                          | Lt => NInf
                          end).
Proof.
  assert (({[1%positive := Demo.ghost_town]} : heap) !! 1%positive
          = Some Demo.ghost_town) as Hdf by apply lookup_singleton_eq.
  assert (h3_column Demo.degree_grid Demo.ghost_town 7 = Ok ["750,4"])
    as Hcol by (vm_compute; reflexivity).
  split; [exact Hdf |]. split; [exact Hcol |].
  exact (emp_perc_of_empty_total Demo.degree_grid _ _ _ _ _ Hdf Hcol).
Defined.

Lemma assign_changes_the_callers_frame :
  ∃ σ',
    assign_h3_to_population Demo.degree_grid 1%positive 7
      {[1%positive := Demo.two_villages]}
    = Ok (1%positive, σ')
    ∧ σ' !! 1%positive
      = Some (mkGeoDataFrame (features Demo.two_villages) (Some ["750,4"; "750,4"]))
    ∧ σ' !! 1%positive ≠ Some Demo.two_villages.
Proof.
  exists {[1%positive :=
            mkGeoDataFrame (features Demo.two_villages) (Some ["750,4"; "750,4"])]}.
  repeat split; by_evaluation.
Qed.

Lemma assign_h3_in_place_witness :
  ({[1%positive := Demo.two_villages]} : heap) !! 1%positive = Some Demo.two_villages
  ∧ h3_column Demo.degree_grid Demo.two_villages 7 = Ok ["750,4"; "750,4"]
  ∧ ∃ σ',
      assign_h3_to_population Demo.degree_grid 1%positive 7
        {[1%positive := Demo.two_villages]}
      = Ok (1%positive, σ')
      ∧ σ' !! 1%positive
        = Some (mkGeoDataFrame (features Demo.two_villages) (Some ["750,4"; "750,4"])).
Proof.
  assert (({[1%positive := Demo.two_villages]} : heap) !! 1%positive
          = Some Demo.two_villages) as Hdf by apply lookup_singleton_eq.
  assert (h3_column Demo.degree_grid Demo.two_villages 7 = Ok ["750,4"; "750,4"])
    as Hcol by (vm_compute; reflexivity).
  split; [exact Hdf |]. split; [exact Hcol |].
  destruct (assign_h3_in_place Demo.degree_grid _ _ _ _ _ Hdf Hcol)
    as (σ' & Hassign & Hframe & _).
  exists σ'. split; [exact Hassign | exact Hframe].
Defined.

(** The join of the spec's two tables A = {c1: 1, c2: 2} and B = {c1: 1}. *)
Example join_drops_unmatched :
  join [("c1", Demo.num 1); ("c2", Demo.num 2)] [("c1", Demo.num 1)]
  = [(("c1", Demo.num 1), ("c1", Demo.num 1))].
Proof. by_evaluation. Qed.

Lemma mixed_resolutions_join_empty :
  ∃ rows σ' df,
    census_cell Demo.degree_grid 1%positive 7 {[1%positive := Demo.two_villages]}
    = Ok (rows, σ')
    ∧ aggregate Demo.degree_grid Demo.two_cells 6 "ndvi" = Ok df
    ∧ rows ≠ [] ∧ cells df ≠ []
    ∧ join rows (cells df) = [].
Proof.
  exists [mkCellSummary "750,4" (Census.mk 30 15 15 10) (Fin (Q2Qc (100 # 3)))],
         {[1%positive :=
             mkGeoDataFrame (features Demo.two_villages) (Some ["750,4"; "750,4"])]},
         (mkLayer "ndvi" [("650,4", Fin (Q2Qc (21 # 2))); ("651,4", Fin (Q2Qc (1 # 2)))]).
  repeat split; by_evaluation.
Qed.

Lemma join_of_mixed_resolutions_witness :
  (∀ lat lng lat' lng' res res' k,
     Demo.degree_grid lat lng res = Ok k →
     Demo.degree_grid lat' lng' res' = Ok k → res = res')
  ∧ ∃ rows σ' df,
      census_cell Demo.degree_grid 1%positive 7 {[1%positive := Demo.two_villages]}
      = Ok (rows, σ')
      ∧ aggregate Demo.degree_grid Demo.two_cells 6 "ndvi" = Ok df
      ∧ 7%Z ≠ 6%Z
      ∧ join rows (cells df) = [].
Proof.
  split; [exact degree_grid_resolution |].
  destruct (census_cell Demo.degree_grid 1%positive 7
              {[1%positive := Demo.two_villages]}) as [[rows σ']|e] eqn:Hcensus;
    [|by vm_compute in Hcensus].
  destruct (aggregate Demo.degree_grid Demo.two_cells 6 "ndvi") as [df|e] eqn:Hlayer;
    [|by vm_compute in Hlayer].
  exists rows, σ', df. split; [reflexivity |]. split; [reflexivity |].
  split; [discriminate |].
  exact (join_of_mixed_resolutions Demo.degree_grid degree_grid_resolution
           _ _ _ _ _ _ _ _ _ Hcensus Hlayer ltac:(discriminate)).
Defined.

Lemma normalize_constant_column_witness :
  series_max (cells Demo.flat).*2 = series_min (cells Demo.flat).*2
  ∧ Forall (λ r, r.2 = NaN) (cells (normalize_layer Demo.flat)).
Proof.
  assert (series_max (cells Demo.flat).*2 = series_min (cells Demo.flat).*2) as Heq
    by (vm_compute; reflexivity).
  split; [exact Heq |].
  destruct (normalize_constant_column Demo.flat Heq) as (_ & _ & Hnan).
  exact Hnan.
Defined.

Lemma index_signals_invalid_input_witness :
  ¬ valid_coordinate (Qc_of_Z 91) (Qc_of_Z 4)
  ∧ Demo.checked_grid (Qc_of_Z 91) (Qc_of_Z 4) 7%Z = Raise "InvalidCoordinate"
  ∧ Demo.checked_grid (Qc_of_Z 51) (Qc_of_Z 4) 16%Z = Raise "InvalidResolution"
  ∧ ∃ e, aggregate Demo.checked_grid Demo.off_globe 7 "ndvi" = Raise e.
Proof.
  assert (¬ valid_coordinate (Qc_of_Z 91) (Qc_of_Z 4)) as Hout.
  { intros [[_ Hlat] _]. rewrite <-Z2Qc_inj_le in Hlat. lia. }
  assert (valid_coordinate (Qc_of_Z 51) (Qc_of_Z 4)) as Hin.
  { repeat split; rewrite <-Z2Qc_inj_le; lia. }
  split; [exact Hout |].
  split.
  { destruct (index_signals_invalid_input (λ res, bool_decide (0 ≤ res ≤ 15)%Z)
                (λ lat lng res, String (Demo.hexdigit res)
                   (pretty (Qfloor lat) +:+ "," +:+ pretty (Qfloor lng)))
                (Qc_of_Z 91) (Qc_of_Z 4) 7) as (Hcoord & _).
    exact (Hcoord Hout). }
  split.
  { destruct (index_signals_invalid_input (λ res, bool_decide (0 ≤ res ≤ 15)%Z)
                (λ lat lng res, String (Demo.hexdigit res)
                   (pretty (Qfloor lat) +:+ "," +:+ pretty (Qfloor lng)))
                (Qc_of_Z 51) (Qc_of_Z 4) 16) as (_ & Hres & _).
    exact (Hres Hin eq_refl). }
  destruct (index_signals_invalid_input (λ res, bool_decide (0 ≤ res ≤ 15)%Z)
              (λ lat lng res, String (Demo.hexdigit res)
                 (pretty (Qfloor lat) +:+ "," +:+ pretty (Qfloor lng)))
              (Qc_of_Z 91) (Qc_of_Z 4) 7) as (_ & _ & _ & Hagg & _).
  destruct (Hagg Demo.off_globe "ndvi" 0%nat 0%nat) as (e & He & _).
  - apply elem_of_pixels. simpl. lia.
  - apply (bool_decide_unpack _). vm_compute. exact I.
  - by left.
  - by exists e.
Defined.

(** * Further properties of the notebook's cells *)

(** ** Normalisation: the range of the values *)

Lemma Qc_div_unit (x y : Qc) : 0 ≤ x → x ≤ y → 0 < y → 0 ≤ x / y ≤ 1.
Proof.
  intros Hx Hxy Hy.
  assert (y ≠ 0) as Hy0 by (apply not_symmetry, Qclt_not_eq, Hy).
  assert (x / y * y = x) as Hdiv by (field; exact Hy0).
  split; apply (Qcmult_lt_0_le_reg_r _ _ y Hy); rewrite Hdiv.
  - by rewrite Qcmult_0_l.
  - by rewrite Qcmult_1_l.
Qed.

Lemma Qc_sub_pos (a b : Qc) : a ≤ b → b + - a ≠ 0 → 0 < b + - a.
Proof.
  intros Hab Hne. apply (proj1 (Qclt_minus_iff a b)).
  destruct (Qcle_lt_or_eq _ _ Hab) as [Hlt | ->]; [done |].
  destruct Hne. apply Qcplus_opp_r.
Qed.

Lemma series_bounds (s : list float) (x : float) :
  x ∈ s → isnan x = false →
  isnan (series_min s) = false ∧ isnan (series_max s) = false
  ∧ fltb x (series_min s) = false ∧ fltb (series_max s) x = false.
Proof.
  unfold series_max, series_min. intros Hx Hnan.
  assert (x ∈ valid s) as Hxv by (by apply list_elem_of_filter).
  pose proof (valid_not_nan s) as Hvalid.
  destruct (valid s) as [|v vs]; [by apply elem_of_nil in Hxv |].
  destruct (foldl_min_lower v vs Hvalid) as [Hmin Hlow].
  destruct (foldl_max_upper v vs Hvalid) as [Hmax Hup].
  rewrite Forall_forall in Hlow, Hup. auto.
Qed.

Lemma normalize_value_range (lo hi x : float) :
  isnan lo = false → isnan hi = false → isnan x = false →
  fltb x lo = false → fltb hi x = false →
  fdiv (fsub x lo) (fsub hi lo) = NaN
  ∨ in_unit_interval (fdiv (fsub x lo) (fsub hi lo)).
Proof.
  assert (in_unit_interval (Fin 0)) as Hzero.
  { exists 0. split; [done |]. split; [apply Qcle_refl | done]. }
  destruct lo as [a| | |], hi as [b| | |], x as [q| | |];
    simpl; try done; auto.
  rewrite !bool_decide_eq_false. intros _ _ _ Haq%Qcnot_lt_le Hqb%Qcnot_lt_le.
  unfold fsub, fdiv. simpl.
  destruct (decide (b + - a = 0)) as [Hba|Hba].
  - assert (b = a) as ->.
    { rewrite <-(Qcplus_0_l a), <-Hba. ring. }
    assert (q = a) as -> by (by apply Qcle_antisym).
    left. by rewrite decide_True by apply Qcplus_opp_r.
  - right. eexists. split; [done |].
    apply Qc_div_unit.
    + by apply (proj1 (Qcle_minus_iff a q)).
    + by apply Qcplus_le_compat; [|apply Qcle_refl].
    + apply Qc_sub_pos; [by etrans | done].
Qed.

(** X1 (normalisation): whatever the column holds, every normalised value is
    either NaN or a number of the closed interval [0, 1]; no row is an
    infinity or a number outside the interval. *)
Theorem normalize_range (s : list float) (v : float) :
  v ∈ normalize s → v = NaN ∨ in_unit_interval v.
Proof.
  unfold normalize. intros (x & -> & Hx)%list_elem_of_fmap.
  destruct (isnan x) eqn:Hnan; [left; by destruct x |].
  destruct (series_bounds s x Hx Hnan) as (Hlo & Hhi & Hxlo & Hhix).
  by apply normalize_value_range.
Qed.

(** ** Aggregation: failures and the order of the rows *)

Lemma mapM_cons_Ok {A B : Type} (f : A → outcome B) (x : A) (l : list A) (y : B) :
  f x = Ok y → mapM f (x :: l) = (mapM f l ≫= λ k, mret (y :: k)).
Proof. intros Hx. simpl. unfold mbind at 1, outcome_bind. by rewrite Hx. Qed.

Lemma mapM_cons_Raise {A B : Type} (f : A → outcome B) (x : A) (l : list A) e :
  f x = Raise e → mapM f (x :: l) = Raise e.
Proof. intros Hx. simpl. unfold mbind at 1, outcome_bind. by rewrite Hx. Qed.

(** A traversal fails with the error of its first failing element. *)
Lemma mapM_Raise_first {A B : Type} (f : A → outcome B) (l : list A) (e : exception) :
  mapM f l = Raise e ↔
  ∃ l1 x l2 ks, l = l1 ++ x :: l2 ∧ mapM f l1 = Ok ks ∧ f x = Raise e.
Proof.
  induction l as [|y l IH].
  - split; [done |]. intros (l1 & x & l2 & ks & Hl & _). by destruct l1.
  - destruct (f y) as [b|e0] eqn:Hy.
    + rewrite (mapM_cons_Ok f y l b Hy). split.
      * destruct (mapM f l) as [k|e1] eqn:Hl; [done |]. intros [= ->].
        destruct (proj1 IH eq_refl) as (l1 & x & l2 & ks & -> & Hl1 & Hx).
        exists (y :: l1), x, l2, (b :: ks). split; [done |]. split; [|done].
        by rewrite (mapM_cons_Ok f y l1 b Hy), Hl1.
      * intros (l1 & x & l2 & ks & Hl & Hl1 & Hx).
        destruct l1 as [|y' l1]; simpl in Hl; injection Hl as <- ->; [congruence |].
        rewrite (mapM_cons_Ok f y l1 b Hy) in Hl1.
        destruct (mapM f l1) as [ks'|] eqn:Hl1'; [|done].
        assert (mapM f (l1 ++ x :: l2) = Raise e) as ->; [|done].
        apply IH. eauto 10.
    + rewrite (mapM_cons_Raise f y l e0 Hy). split.
      * intros [= ->]. by exists [], y, l, [].
      * intros (l1 & x & l2 & ks & Hl & Hl1 & Hx).
        destruct l1 as [|y' l1]; simpl in Hl; injection Hl as <- ->; [congruence |].
        by rewrite (mapM_cons_Raise f y l1 e0 Hy) in Hl1.
Qed.

Lemma mapM_is_Ok {A B : Type} (f : A → outcome B) (l : list A) :
  (∃ k, mapM f l = Ok k) ↔ ∀ x, x ∈ l → ∃ y, f x = Ok y.
Proof.
  split.
  - intros [k Hk%mapM_Ok] x [i Hi]%list_elem_of_lookup.
    destruct (Forall2_lookup_l _ _ _ i x Hk Hi) as (y & _ & Hy). eauto.
  - induction l as [|x l IH]; intros Hall; [by exists [] |].
    destruct (Hall x) as [y Hy]; [left |].
    destruct IH as [k Hk]; [intros; apply Hall; by right |].
    exists (y :: k). by rewrite (mapM_cons_Ok f x l y Hy), Hk.
Qed.

(** Every position of the two loops is the position of one pixel. *)
Lemma grid_lookup_inv (n m i row col : nat) :
  (row ← seq 0 n; col ← seq 0 m; [(row, col)]) !! i = Some (row, col) →
  i = (row * m + col)%nat ∧ (row < n)%nat ∧ (col < m)%nat.
Proof.
  intros Hi. pose proof (lookup_lt_Some _ _ _ Hi) as Hlt.
  rewrite length_grid in Hlt.
  assert (m ≠ 0)%nat as Hm by (intros ->; lia).
  assert (i `mod` m < m)%nat as Hcol by (by apply Nat.mod_upper_bound).
  assert (i `div` m < n)%nat as Hrow by (apply Nat.Div0.div_lt_upper_bound; lia).
  pose proof (Nat.div_mod i m Hm) as Hdiv.
  pose proof (grid_lookup n m _ _ Hrow Hcol) as Hi'.
  replace (i `div` m * m + i `mod` m)%nat with i in Hi' by lia.
  rewrite Hi in Hi'. injection Hi' as -> ->. split; [lia | done].
Qed.

Section grid_traversal.
Context {B : Type} (f : nat * nat → outcome B) (n m : nat).
Let grid : list (nat * nat) := row ← seq 0 n; col ← seq 0 m; [(row, col)].

Lemma mapM_grid_is_Ok :
  (∃ k, mapM f grid = Ok k) ↔
  ∀ row col, (row < n)%nat → (col < m)%nat → ∃ y, f (row, col) = Ok y.
Proof.
  rewrite mapM_is_Ok. split.
  - intros Hall row col Hrow Hcol. apply Hall. by apply elem_of_grid.
  - intros Hall [row col] [??]%elem_of_grid. by apply Hall.
Qed.

(** The traversal fails with the error of the first pixel, in row-major
    order, on which [f] fails. *)
Lemma mapM_grid_Raise (e : exception) :
  mapM f grid = Raise e ↔
  ∃ row col, (row < n)%nat ∧ (col < m)%nat ∧ f (row, col) = Raise e
    ∧ ∀ row' col', (row' < n)%nat → (col' < m)%nat →
        (row' * m + col' < row * m + col)%nat → ∃ y, f (row', col') = Ok y.
Proof.
  rewrite mapM_Raise_first. split.
  - intros (l1 & [row col] & l2 & ks & Hgrid & Hl1 & Hx).
    assert (grid !! length l1 = Some (row, col)) as Hi
      by (by rewrite Hgrid, list_lookup_middle).
    apply grid_lookup_inv in Hi as (Hi & Hrow & Hcol).
    exists row, col. do 3 (split; [done |]).
    intros row' col' Hrow' Hcol' Hlt.
    pose proof (grid_lookup n m _ _ Hrow' Hcol') as Hj. fold grid in Hj.
    rewrite Hgrid, lookup_app_l in Hj by lia.
    destruct (mapM_Ok_lookup _ _ _ _ _ Hl1 Hj) as (y & _ & ?). eauto.
  - intros (row & col & Hrow & Hcol & Hx & Hbefore).
    pose proof (grid_lookup n m _ _ Hrow Hcol) as Hi. fold grid in Hi.
    assert (∃ ks, mapM f (take (row * m + col) grid) = Ok ks) as [ks Hks].
    { apply mapM_is_Ok. intros [row' col'] [j [Hj Hlt]]%elem_of_take.
      apply grid_lookup_inv in Hj as (-> & ? & ?). by apply Hbefore. }
    exists (take (row * m + col) grid), (row, col), (drop (S (row * m + col)) grid), ks.
    split; [by rewrite take_drop_middle | done].
Qed.
End grid_traversal.

Global Instance cell_le_total : Total cell_le.
Proof. intros k1 k2. apply String.leb_total. Qed.

Lemma Sorted_strict {A : Type} (R : relation A) (l : list A) :
  Sorted R l → NoDup l → Sorted (λ x y, R x y ∧ x ≠ y) l.
Proof.
  induction 1 as [|x l _ IH Hhd]; intros Hnd; [constructor |].
  apply NoDup_cons in Hnd as [Hx Hnd]. constructor; [by apply IH |].
  destruct Hhd as [|y l' Hxy]; constructor. split; [done |].
  intros ->. apply Hx. left.
Qed.

Section aggregation.
Variable latlng_to_cell : Indexer.
Implicit Types (raster : Raster) (resolution : Z) (field : string).

Lemma aggregate_Ok_inv raster resolution field df :
  aggregate latlng_to_cell raster resolution field = Ok df →
  ∃ values, pixel_values latlng_to_cell raster resolution = Ok values
            ∧ field ≠ "h3_index"
            ∧ df = mkLayer field (groupby mean values).
Proof.
  unfold aggregate.
  destruct (pixel_values latlng_to_cell raster resolution) as [values|]; [|done].
  cbn. case_decide; [done |]. intros [= <-]. eauto.
Qed.

(** X4 (aggregate): on an opened raster, the function returns a table
    exactly when the value column is not named ['h3_index'] and the indexer
    returns a cell for every pixel of [0, rows) × [0, cols).  When a pixel
    is refused it raises what the indexer raised on the first such pixel in
    row-major order; when none is refused and the value column is named
    ['h3_index'], it raises [ValueError] from the grouping. *)
Theorem aggregate_fails_on_first_refused_pixel raster resolution field :
  ((∃ df, aggregate latlng_to_cell raster resolution field = Ok df) ↔
   field ≠ "h3_index"
   ∧ ∀ row col, (row < (shape raster).1)%nat → (col < (shape raster).2)%nat →
       ∃ entry, pixel_entry latlng_to_cell raster resolution (row, col) = Ok entry)
  ∧ ∀ e, aggregate latlng_to_cell raster resolution field = Raise e ↔
      (∃ row col,
         (row < (shape raster).1)%nat ∧ (col < (shape raster).2)%nat
         ∧ pixel_entry latlng_to_cell raster resolution (row, col) = Raise e
         ∧ ∀ row' col',
             (row' < (shape raster).1)%nat → (col' < (shape raster).2)%nat →
             (row' * (shape raster).2 + col' < row * (shape raster).2 + col)%nat →
             ∃ entry, pixel_entry latlng_to_cell raster resolution (row', col')
                      = Ok entry)
      ∨ (field = "h3_index" ∧ e = "ValueError"
         ∧ ∀ row col, (row < (shape raster).1)%nat → (col < (shape raster).2)%nat →
             ∃ entry, pixel_entry latlng_to_cell raster resolution (row, col)
                      = Ok entry).
Proof.
  pose proof (mapM_grid_is_Ok (pixel_entry latlng_to_cell raster resolution)
                (shape raster).1 (shape raster).2) as Hok.
  pose proof (mapM_grid_Raise (pixel_entry latlng_to_cell raster resolution)
                (shape raster).1 (shape raster).2) as Hraise.
  fold (pixels raster) in Hok, Hraise.
  rewrite <-pixel_values_mapM in Hok. setoid_rewrite <-pixel_values_mapM in Hraise.
  destruct (pixel_values latlng_to_cell raster resolution) as [values|e0] eqn:Hpv.
  - assert (∀ row col, (row < (shape raster).1)%nat → (col < (shape raster).2)%nat →
              ∃ entry, pixel_entry latlng_to_cell raster resolution (row, col)
                       = Ok entry) as Hall by (apply Hok; eauto).
    assert (∀ e, ¬ ∃ row col,
              (row < (shape raster).1)%nat ∧ (col < (shape raster).2)%nat
              ∧ pixel_entry latlng_to_cell raster resolution (row, col) = Raise e
              ∧ ∀ row' col',
                  (row' < (shape raster).1)%nat → (col' < (shape raster).2)%nat →
                  (row' * (shape raster).2 + col' < row * (shape raster).2 + col)%nat →
                  ∃ entry, pixel_entry latlng_to_cell raster resolution (row', col')
                           = Ok entry) as Hnone
      by (intros e Hfirst; by pose proof (proj2 (Hraise e) Hfirst)).
    destruct (decide (field = "h3_index")) as [->|Hfield].
    + rewrite (aggregate_ValueError _ _ _ _ Hpv). split.
      * split; [by intros [df ?] | by intros [? _]].
      * intros e. split.
        -- intros [= <-]. right. done.
        -- intros [Hfirst|(_ & -> & _)]; [by apply Hnone in Hfirst | done].
    + rewrite (aggregate_Ok _ _ _ field _ Hpv Hfield). split.
      * split; [done | eauto].
      * intros e. split; [done |].
        intros [Hfirst|(? & _)]; [by apply Hnone in Hfirst | done].
  - assert (aggregate latlng_to_cell raster resolution field = Raise e0) as ->
      by (unfold aggregate; by rewrite Hpv).
    split.
    + split; [by intros [df ?] |]. intros [_ Hall]. apply Hok in Hall as [? ?]. done.
    + intros e. split.
      * intros [= ->]. left. exact (proj1 (Hraise _) eq_refl).
      * intros [Hfirst|(_ & _ & Hall)].
        -- by injection (proj2 (Hraise e) Hfirst) as ->.
        -- apply Hok in Hall as [? ?]. done.
Qed.

(** X6 (aggregate): the rows of the table come in strictly ascending order
    of cell index, whatever the order in which the pixels met the cells. *)
Theorem aggregate_rows_ascending raster resolution field df :
  aggregate latlng_to_cell raster resolution field = Ok df →
  Sorted (λ k1 k2, cell_le k1 k2 ∧ k1 ≠ k2) (cells df).*1.
Proof.
  intros (values & _ & _ & ->)%aggregate_Ok_inv. simpl. rewrite groupby_keys.
  apply Sorted_strict; [|apply NoDup_group_keys].
  unfold group_keys. apply (Sorted_merge_sort cell_le).
Qed.
End aggregation.

(** ** The census cell: totals, percentages, overwriting *)

Lemma zsum_add {A : Type} (f g : A → Z) (l : list A) :
  zsum ((λ x, f x + g x)%Z <$> l) = (zsum (f <$> l) + zsum (g <$> l))%Z.
Proof. induction l as [|x l IH]; [done |]. rewrite !fmap_cons. simpl. lia. Qed.

Lemma zsum_cons (n : Z) (ns : list Z) : zsum (n :: ns) = (n + zsum ns)%Z.
Proof. done. Qed.

Lemma zsum_indicator (keys : list CellId) (k0 : CellId) (c : Z) :
  NoDup keys → k0 ∈ keys →
  zsum ((λ k, if decide (k0 = k) then c else 0%Z) <$> keys) = c.
Proof.
  induction 1 as [|k keys Hk _ IH]; [by intros ?%elem_of_nil |].
  intros Hin. rewrite fmap_cons, zsum_cons.
  destruct (decide (k0 = k)) as [->|Hne].
  - assert (zsum ((λ k', if decide (k = k') then c else 0%Z) <$> keys) = 0%Z) as ->;
      [|lia].
    clear IH Hin. induction keys as [|k' keys IHk]; [done |].
    rewrite fmap_cons, zsum_cons. apply not_elem_of_cons in Hk as [Hne Hk].
    rewrite decide_False by done. by rewrite IHk.
  - apply elem_of_cons in Hin as [?|Hin]; [done |]. by rewrite IH.
Qed.

(** Grouping loses nothing: the group sums add up to the sum of the column. *)
Lemma group_sums_total {V : Type} (f : V → Z) (rows : list (CellId * V))
    (keys : list CellId) :
  NoDup keys → rows.*1 ⊆ keys →
  zsum ((λ k, zsum (f <$> group_values k rows)) <$> keys) = zsum (f <$> rows.*2).
Proof.
  intros Hnd. induction rows as [|[k0 v] rows IH]; intros Hsub.
  - simpl. clear. induction keys as [|k keys IHk]; [done |].
    by rewrite fmap_cons, zsum_cons, IHk.
  - rewrite !fmap_cons, zsum_cons. simpl snd. rewrite <-IH.
    2:{ intros k Hk. apply Hsub. rewrite fmap_cons. by right. }
    rewrite <-(zsum_indicator keys k0 (f v) Hnd) at 1
      by (apply Hsub; rewrite fmap_cons; left).
    rewrite <-zsum_add. f_equal. apply list_fmap_ext. intros _ k _.
    unfold group_values. rewrite filter_cons. simpl.
    destruct (decide (k0 = k)); [by rewrite !fmap_cons |]. lia.
Qed.

Lemma zsum_le {A : Type} (f g : A → Z) (l : list A) :
  (∀ x, x ∈ l → (0 ≤ f x ≤ g x)%Z) → (0 ≤ zsum (f <$> l) ≤ zsum (g <$> l))%Z.
Proof.
  induction l as [|x l IH]; intros Hall; [done |].
  rewrite !fmap_cons, !zsum_cons.
  pose proof (Hall x ltac:(left)). 
  specialize (IH (λ y Hy, Hall y ltac:(by right))). lia.
Qed.

Lemma zsum_group_le {V : Type} (f : V → Z) (rows : list (CellId * V)) (k : CellId) :
  (∀ v, v ∈ rows.*2 → (0 ≤ f v)%Z) →
  (zsum (f <$> group_values k rows) ≤ zsum (f <$> rows.*2))%Z.
Proof.
  induction rows as [|[k' v] rows IH]; intros Hpos; [done |].
  rewrite !fmap_cons, zsum_cons. simpl.
  pose proof (Hpos v ltac:(left)).
  specialize (IH (λ y Hy, Hpos y ltac:(by right))).
  unfold group_values in *. rewrite filter_cons. simpl.
  destruct (decide (k' = k)); [rewrite !fmap_cons, zsum_cons |]; simpl; lia.
Qed.

Lemma emp_perc_bounds (c : Census.t) :
  (0 ≤ Census.EMP c ≤ Census.T c)%Z →
  (Census.EMP c * 100 < 2 ^ 31)%Z →
  (Census.T c = 0%Z ∧ emp_perc c = NaN)
  ∨ ∃ q, emp_perc c = Fin q ∧ 0 ≤ q ≤ Qc_of_Z 100.
Proof.
  intros [He HT] Hsmall. destruct (decide (Census.T c = 0%Z)) as [H0|H0].
  - left. split; [done |]. rewrite (emp_perc_zero_total c H0).
    by replace (Census.EMP c) with 0%Z by lia.
  - right. rewrite emp_perc_small by (unfold fits_int32; lia).
    unfold float_of_int, fdiv.
    assert (0 < Qc_of_Z (Census.T c)) as Hpos
      by (rewrite <-Z2Qc_inj_0, <-Z2Qc_inj_lt; lia).
    assert (Qc_of_Z (Census.T c) ≠ 0) as Hne
      by (apply not_symmetry, Qclt_not_eq, Hpos).
    rewrite decide_False by done. eexists. split; [done |].
    assert (Qc_of_Z (Census.EMP c * 100) / Qc_of_Z (Census.T c) * Qc_of_Z (Census.T c)
            = Qc_of_Z (Census.EMP c * 100)) as Hdiv by (field; exact Hne).
    split; apply (Qcmult_lt_0_le_reg_r _ _ _ Hpos); rewrite Hdiv.
    + rewrite Qcmult_0_l, <-Z2Qc_inj_0, <-Z2Qc_inj_le. lia.
    + rewrite <-Z2Qc_inj_mul, <-Z2Qc_inj_le. lia.
Qed.

Section census_more.
Variable latlng_to_cell : Indexer.
Implicit Types (σ : heap) (df : GeoDataFrame) (resolution : Z).
Implicit Types (col : list CellId) (population_data : loc).

(** X7 (the census cell): grouping loses and invents nobody: for each of the
    four counts, the sum over the rows of the grouped table is the sum over
    the records of the input frame. *)
Theorem census_totals_preserved σ population_data df resolution col :
  σ !! population_data = Some df →
  h3_column latlng_to_cell df resolution = Ok col →
  ∃ rows σ',
    census_cell latlng_to_cell population_data resolution σ = Ok (rows, σ')
    ∧ zsum (Census.T ∘ totals <$> rows) = zsum (Census.T ∘ properties <$> features df)
    ∧ zsum (Census.M ∘ totals <$> rows) = zsum (Census.M ∘ properties <$> features df)
    ∧ zsum (Census.F ∘ totals <$> rows) = zsum (Census.F ∘ properties <$> features df)
    ∧ zsum (Census.EMP ∘ totals <$> rows)
      = zsum (Census.EMP ∘ properties <$> features df).
Proof.
  intros Hdf Hcol. eexists _, _. split; [by apply census_cell_Ok |].
  pose proof (h3_column_length _ _ _ _ Hcol) as Hlen.
  assert ((zip col (properties <$> features df)).*2 = properties <$> features df)
    as Hsnd by (apply snd_zip; rewrite length_fmap; lia).
  assert (∀ f : Census.t → Z,
    zsum ((λ k, zsum (f <$> group_values k (zip col (properties <$> features df))))
            <$> group_keys (zip col (properties <$> features df)))
    = zsum (f ∘ properties <$> features df)) as Htotal.
  { intros f. rewrite group_sums_total.
    - by rewrite Hsnd, <-list_fmap_compose.
    - apply NoDup_group_keys.
    - intros k Hk. by apply elem_of_group_keys. }
  unfold add_emp_perc, groupby. rewrite <-!list_fmap_compose.
  split; [exact (Htotal Census.T) |]. split; [exact (Htotal Census.M) |].
  split; [exact (Htotal Census.F) | exact (Htotal Census.EMP)].
Qed.

(** X8 (the census cell): when every record has an employed count between 0
    and its total, and a hundred times the employed count of the whole frame
    is below 2^31 (so that no 32-bit product wraps), every row of the
    grouped table has an employed percentage between 0 and 100, except the
    rows whose summed total is 0, whose percentage is NaN. *)
Theorem census_percentage_bounds σ population_data df resolution col :
  σ !! population_data = Some df →
  h3_column latlng_to_cell df resolution = Ok col →
  (∀ ft, ft ∈ features df →
         (0 ≤ Census.EMP (properties ft) ≤ Census.T (properties ft))%Z) →
  (zsum (Census.EMP ∘ properties <$> features df) * 100 < 2 ^ 31)%Z →
  ∃ rows σ',
    census_cell latlng_to_cell population_data resolution σ = Ok (rows, σ')
    ∧ ∀ r, r ∈ rows →
        (Census.T (totals r) = 0%Z ∧ EMP_PERC r = NaN)
        ∨ ∃ q, EMP_PERC r = Fin q ∧ 0 ≤ q ≤ Qc_of_Z 100.
Proof.
  intros Hdf Hcol Hrec Hsmall. eexists _, _. split; [by apply census_cell_Ok |].
  pose proof (h3_column_length _ _ _ _ Hcol) as Hlen.
  unfold add_emp_perc.
  intros r ([k c] & -> & [_ ->]%elem_of_groupby)%list_elem_of_fmap.
  cbn [h3 totals EMP_PERC fst snd].
  apply emp_perc_bounds; unfold sum_census; cbn [Census.T Census.EMP].
  - apply zsum_le. intros c Hc%elem_of_group_values.
    apply elem_of_zip_r, list_elem_of_fmap in Hc as (ft & -> & Hft). by apply Hrec.
  - pose proof (zsum_group_le Census.EMP (zip col (properties <$> features df)) k)
      as Hle.
    rewrite snd_zip, <-list_fmap_compose in Hle by (rewrite length_fmap; lia).
    enough (zsum (Census.EMP <$> group_values k (zip col (properties <$> features df)))
            ≤ zsum (Census.EMP ∘ properties <$> features df))%Z by lia.
    apply Hle. intros c (ft & -> & Hft)%list_elem_of_fmap. by apply Hrec.
Qed.

(** X9 (assign_h3_to_population): a column ['h3_index'] already present in
    the frame is overwritten, so the result does not depend on it; and
    applying the function a second time, to what the first call returned,
    changes nothing more. *)
Theorem assign_h3_overwrites σ population_data df resolution :
  σ !! population_data = Some df →
  (∀ stale,
     assign_h3_to_population latlng_to_cell population_data resolution
       (<[population_data := mkGeoDataFrame (features df) stale]> σ)
     = assign_h3_to_population latlng_to_cell population_data resolution σ)
  ∧ (∀ returned σ',
       assign_h3_to_population latlng_to_cell population_data resolution σ
       = Ok (returned, σ') →
       assign_h3_to_population latlng_to_cell returned resolution σ'
       = Ok (returned, σ')).
Proof.
  intros Hdf. split.
  - intros stale. unfold assign_h3_to_population.
    rewrite lookup_insert_eq, Hdf.
    change (h3_column latlng_to_cell (mkGeoDataFrame (features df) stale) resolution)
      with (h3_column latlng_to_cell df resolution).
    destruct (h3_column latlng_to_cell df resolution); [|done].
    cbn. by rewrite insert_insert_eq.
  - intros returned σ'. unfold assign_h3_to_population at 1. rewrite Hdf.
    destruct (h3_column latlng_to_cell df resolution) as [col|] eqn:Hcol; [|done].
    cbn. intros [= <- <-]. unfold assign_h3_to_population.
    rewrite lookup_insert_eq.
    change (h3_column latlng_to_cell (mkGeoDataFrame (features df) (Some col)) resolution)
      with (h3_column latlng_to_cell df resolution).
    rewrite Hcol. cbn. by rewrite insert_insert_eq.
Qed.

End census_more.

(** ** Joining: what [merge] keeps and what the merged table looks like *)

Lemma normalize_layer_keys (df : Layer) :
  (cells (normalize_layer df)).*1 = (cells df).*1.
Proof.
  unfold normalize_layer, normalize. simpl. apply fst_zip. by rewrite !length_fmap.
Qed.

Lemma normalize_layer_values (df : Layer) :
  (cells (normalize_layer df)).*2 = normalize (cells df).*2.
Proof.
  unfold normalize_layer, normalize. simpl. apply snd_zip. by rewrite !length_fmap.
Qed.

Section join_more.
Context `{Row A, Row B}.
Implicit Types (left : list A) (right : list B).

Lemma filter_key_unique right k :
  NoDup (key <$> right) → (length (filter (λ b, key b = k) right) ≤ 1)%nat.
Proof.
  induction right as [|b right IH]; [simpl; lia |].
  rewrite fmap_cons. intros [Hb Hnd]%NoDup_cons. rewrite filter_cons.
  destruct (decide (key b = k)) as [<-|]; [|by apply IH].
  assert (filter (λ b', key b' = key b) right = []) as ->; [|simpl; lia].
  apply elem_of_nil_inv. intros b' [Hk Hb']%list_elem_of_filter.
  apply Hb. rewrite <-Hk. apply list_elem_of_fmap. by exists b'.
Qed.

Lemma merge_cons (a : A) left right :
  merge (a :: left) right = merge [a] right ++ merge left right.
Proof. unfold merge. rewrite !bind_cons. simpl. by rewrite app_nil_r. Qed.

Lemma merge_one_left_rows (a : A) right :
  NoDup (key <$> right) → (merge [a] right).*1 = [a].
Proof.
  intros Hnd. pose proof (filter_key_unique right (key a) Hnd) as Hlen.
  unfold merge. rewrite bind_cons. simpl. rewrite app_nil_r.
  destruct (filter (λ b, key b = key a) right) as [|b [|b' bs]]; simpl in *;
    [done | done | lia].
Qed.

Lemma dropna_app (rows1 rows2 : list (A * option B)) :
  dropna (rows1 ++ rows2) = dropna rows1 ++ dropna rows2.
Proof. unfold dropna. apply bind_app. Qed.

Lemma dropna_left_rows (rows : list (A * option B)) :
  (dropna rows).*1 `sublist_of` rows.*1.
Proof.
  induction rows as [|[a ob] rows IH]; [constructor |].
  change ((a, ob) :: rows) with ([(a, ob)] ++ rows).
  rewrite dropna_app, !fmap_app. unfold dropna at 1. simpl.
  destruct ob as [b|]; [destruct (hasna a || hasna b) |]; simpl;
    by constructor.
Qed.

Lemma merge_left_rows left right :
  NoDup (key <$> right) → (merge left right).*1 = left.
Proof.
  intros Hnd. induction left as [|a left IH]; [done |].
  by rewrite merge_cons, fmap_app, merge_one_left_rows, IH.
Qed.

Lemma join_left_rows left right :
  NoDup (key <$> right) → (join left right).*1 `sublist_of` left.
Proof.
  intros Hnd. unfold join. rewrite <-(merge_left_rows left right Hnd) at 2.
  apply dropna_left_rows.
Qed.

Lemma join_NoDup left right :
  NoDup (key <$> left) → NoDup (key <$> right) → NoDup (key <$> join left right).
Proof.
  intros Hl Hr.
  change (key <$> join left right) with ((key ∘ fst) <$> join left right).
  rewrite list_fmap_compose. apply (sublist_NoDup _ _ Hl).
  by apply fmap_sublist, join_left_rows.
Qed.

(** X11 (merge): when the right table has one row per cell, the left join
    returns the left rows themselves, each once and in their order, whether
    or not they found a match. *)
Theorem merge_keeps_left_rows left right :
  NoDup (key <$> right) →
  (merge left right).*1 = left
  ∧ ∀ a, a ∈ left → key a ∉ key <$> right → (a, None) ∈ merge left right.
Proof.
  intros Hnd. split; [by apply merge_left_rows |].
  intros a Ha Hkey. apply elem_of_merge. split; [done |].
  intros b Hb Hk. apply Hkey. rewrite <-Hk. apply list_elem_of_fmap. by exists b.
Qed.

(** X12 (merge, dropna): when the right table has one row per cell, the
    joined table consists of left rows in their original order, with no row
    repeated or added, so it is never longer than the left table; and if the
    left table has one row per cell, so has the joined table. *)
Theorem join_is_a_selection_of_left left right :
  NoDup (key <$> right) →
  (join left right).*1 `sublist_of` left
  ∧ (length (join left right) ≤ length left)%nat
  ∧ (NoDup (key <$> left) → NoDup (key <$> join left right)).
Proof.
  intros Hnd. pose proof (join_left_rows left right Hnd) as Hsub.
  split; [done |]. split.
  - rewrite <-(length_fmap fst). by apply sublist_length.
  - intros Hl. by apply join_NoDup.
Qed.
End join_more.

(** X14 (the merge cell): the two rasters can be merged in either order:
    the same cells survive with the same values. *)
Theorem merge_cell_order_irrelevant population_data ndvi_df bel_pop_density
    (s : CellSummary) (n p : CellId * float) :
  (s, n, p) ∈ merge_cell population_data ndvi_df bel_pop_density ↔
  (s, p, n) ∈ merge_cell population_data bel_pop_density ndvi_df.
Proof.
  unfold merge_cell. rewrite !elem_of_join. simpl.
  rewrite !orb_false_iff. tauto.
Qed.

(** X15 (normalisation, then the merge cell): when the NDVI column is
    constant, every normalised value is NaN and the merged table is empty,
    whatever the census and the density layer hold. *)
Theorem constant_ndvi_empties_table population_data ndvi_df bel_pop_density :
  series_max (cells ndvi_df).*2 = series_min (cells ndvi_df).*2 →
  merge_cell population_data (normalize_layer ndvi_df) bel_pop_density = [].
Proof.
  intros Heq. apply elem_of_nil_inv. intros [[s n] p] Hrow.
  unfold merge_cell in Hrow.
  apply elem_of_join in Hrow as ((_ & Hn & _ & _ & Hnan)%elem_of_join & _).
  assert (n.2 ∈ normalize (cells ndvi_df).*2) as Hv.
  { rewrite <-normalize_layer_values. apply list_elem_of_fmap. by exists n. }
  pose proof (normalize_constant _ Heq) as Hall. rewrite Forall_forall in Hall.
  apply Hall in Hv. simpl in Hnan. by rewrite Hv in Hnan.
Qed.

(** ** The whole notebook *)

Section notebook.
Variable latlng_to_cell : Indexer.

Lemma census_cell_Ok_inv (σ σ' : heap) population_data resolution rows :
  census_cell latlng_to_cell population_data resolution σ = Ok (rows, σ') →
  ∃ df col,
    σ !! population_data = Some df
    ∧ h3_column latlng_to_cell df resolution = Ok col
    ∧ rows = add_emp_perc (groupby sum_census (zip col (properties <$> features df)))
    ∧ σ' = <[population_data := mkGeoDataFrame (features df) (Some col)]> σ.
Proof.
  intros Hcell.
  destruct (σ !! population_data) as [df|] eqn:Hdf.
  2:{ unfold census_cell, assign_h3_to_population in Hcell. by rewrite Hdf in Hcell. }
  destruct (h3_column latlng_to_cell df resolution) as [col|] eqn:Hcol.
  2:{ unfold census_cell, assign_h3_to_population in Hcell.
      by rewrite Hdf, Hcol in Hcell. }
  rewrite (census_cell_Ok _ _ _ _ _ _ Hdf Hcol) in Hcell.
  injection Hcell as <- <-. by exists df, col.
Qed.

Lemma notebook_Ok_inv ndvi census pop_dens resolution (σ σ' : heap) table :
  notebook latlng_to_cell ndvi census pop_dens resolution σ = Ok (table, σ') →
  ∃ ndvi_df population_data bel_pop_density,
    aggregate latlng_to_cell ndvi resolution "ndvi" = Ok ndvi_df
    ∧ census_cell latlng_to_cell census resolution σ = Ok (population_data, σ')
    ∧ aggregate latlng_to_cell pop_dens resolution "population_density"
      = Ok bel_pop_density
    ∧ table = merge_cell population_data (normalize_layer ndvi_df) bel_pop_density.
Proof.
  unfold notebook.
  destruct (aggregate latlng_to_cell ndvi resolution "ndvi") as [ndvi_df|]; [|done].
  cbn.
  destruct (census_cell latlng_to_cell census resolution σ)
    as [[population_data σ1]|]; [|done].
  cbn.
  destruct (aggregate latlng_to_cell pop_dens resolution "population_density")
    as [bel_pop_density|]; [|done].
  cbn. intros [= <- <-]. eauto 10.
Qed.

(** X16 (the notebook): whenever the cells run to the end, the merged table
    has one row per cell; in each row the three parts belong to the same
    cell, the NDVI value is a number of [0, 1], and neither the employed
    percentage nor the density is NaN. *)
Theorem notebook_table_is_clean ndvi census pop_dens resolution (σ σ' : heap) table :
  notebook latlng_to_cell ndvi census pop_dens resolution σ = Ok (table, σ') →
  NoDup (key <$> table)
  ∧ ∀ s n p, (s, n, p) ∈ table →
      n.1 = h3 s ∧ p.1 = h3 s
      ∧ in_unit_interval n.2
      ∧ isnan (EMP_PERC s) = false ∧ isnan p.2 = false.
Proof.
  intros (ndvi_df & population_data & bel_pop_density
          & Hndvi & Hcensus & Hdens & ->)%notebook_Ok_inv.
  apply aggregate_Ok_inv in Hndvi as (values1 & _ & _ & ->).
  apply aggregate_Ok_inv in Hdens as (values2 & _ & _ & ->).
  apply census_cell_Ok_inv in Hcensus as (df & col & _ & _ & -> & _).
  split.
  - unfold merge_cell. apply join_NoDup; [apply join_NoDup |].
    + unfold add_emp_perc. simpl. rewrite <-list_fmap_compose.
      change (h3 ∘ _) with (fst : CellId * Census.t → CellId).
      rewrite groupby_keys. apply NoDup_group_keys.
    + change (key <$> ?l) with (l.*1). rewrite normalize_layer_keys. simpl.
      rewrite groupby_keys. apply NoDup_group_keys.
    + change (key <$> ?l) with (l.*1). simpl.
      rewrite groupby_keys. apply NoDup_group_keys.
  - intros s n p Hrow. unfold merge_cell in Hrow.
    apply elem_of_join in Hrow
      as ((_ & Hn & Hkn & Hs & Hnn)%elem_of_join & _ & Hkp & _ & Hnp).
    assert (n.2 ∈ normalize (cells (mkLayer "ndvi" (groupby mean values1))).*2) as Hv.
    { rewrite <-normalize_layer_values. apply list_elem_of_fmap. by exists n. }
    simpl in Hkn, Hkp, Hs, Hnn, Hnp.
    repeat split; try done.
    unfold normalize in Hv. apply list_elem_of_fmap in Hv as (x & Hx & Hin).
    destruct (isnan x) eqn:Hnan.
    { destruct x; try done. rewrite Hx in Hnn. done. }
    destruct (series_bounds _ x Hin Hnan) as (Hlo & Hhi & Hxlo & Hhix).
    destruct (normalize_value_range _ _ x Hlo Hhi Hnan Hxlo Hhix) as [HNaN|Hunit].
    + rewrite <-Hx in HNaN. by rewrite HNaN in Hnn.
    + by rewrite Hx.
Qed.
End notebook.

(** ** The further properties on concrete inputs *)

Lemma aggregate_rows_ascending_witness :
  aggregate Demo.degree_grid Demo.two_cells 7 "ndvi"
  = Ok (mkLayer "ndvi" [("750,4", Fin (Q2Qc (21 # 2))); ("751,4", Fin (Q2Qc (1 # 2)))])
  ∧ Sorted (λ k1 k2, cell_le k1 k2 ∧ k1 ≠ k2) ["750,4"; "751,4"].
Proof.
  assert (aggregate Demo.degree_grid Demo.two_cells 7 "ndvi"
          = Ok (mkLayer "ndvi" [("750,4", Fin (Q2Qc (21 # 2)));
                                ("751,4", Fin (Q2Qc (1 # 2)))])) as Hdf
    by by_evaluation.
  split; [exact Hdf |].
  exact (aggregate_rows_ascending Demo.degree_grid Demo.two_cells 7 "ndvi" _ Hdf).
Defined.

Lemma census_totals_preserved_witness :
  ({[1%positive := Demo.two_villages]} : heap) !! 1%positive = Some Demo.two_villages
  ∧ h3_column Demo.degree_grid Demo.two_villages 7 = Ok ["750,4"; "750,4"]
  ∧ ∃ rows σ',
      census_cell Demo.degree_grid 1%positive 7 {[1%positive := Demo.two_villages]}
      = Ok (rows, σ')
      ∧ zsum (Census.T ∘ totals <$> rows) = 30%Z
      ∧ zsum (Census.EMP ∘ totals <$> rows) = 10%Z.
Proof.
  assert (({[1%positive := Demo.two_villages]} : heap) !! 1%positive
          = Some Demo.two_villages) as Hdf by apply lookup_singleton_eq.
  assert (h3_column Demo.degree_grid Demo.two_villages 7 = Ok ["750,4"; "750,4"])
    as Hcol by (vm_compute; reflexivity).
  split; [exact Hdf |]. split; [exact Hcol |].
  destruct (census_totals_preserved Demo.degree_grid _ _ _ _ _ Hdf Hcol)
    as (rows & σ' & Hcell & HT & _ & _ & HE).
  exists rows, σ'. split; [exact Hcell |]. split; [exact HT | exact HE].
Defined.

Lemma two_villages_plausible (ft : Feature) :
  ft ∈ features Demo.two_villages →
  (0 ≤ Census.EMP (properties ft) ≤ Census.T (properties ft))%Z.
Proof.
  unfold Demo.two_villages. simpl.
  intros [->|[->|?%elem_of_nil]%elem_of_cons]%elem_of_cons; simpl; [lia | lia | done].
Qed.

Lemma census_percentage_bounds_witness :
  ({[1%positive := Demo.two_villages]} : heap) !! 1%positive = Some Demo.two_villages
  ∧ h3_column Demo.degree_grid Demo.two_villages 7 = Ok ["750,4"; "750,4"]
  ∧ (∀ ft, ft ∈ features Demo.two_villages →
           (0 ≤ Census.EMP (properties ft) ≤ Census.T (properties ft))%Z)
  ∧ (zsum (Census.EMP ∘ properties <$> features Demo.two_villages) * 100 < 2 ^ 31)%Z
  ∧ ∃ rows σ',
      census_cell Demo.degree_grid 1%positive 7 {[1%positive := Demo.two_villages]}
      = Ok (rows, σ')
      ∧ ∀ r, r ∈ rows →
          (Census.T (totals r) = 0%Z ∧ EMP_PERC r = NaN)
          ∨ ∃ q, EMP_PERC r = Fin q ∧ 0 ≤ q ≤ Qc_of_Z 100.
Proof.
  assert (zsum (Census.EMP ∘ properties <$> features Demo.two_villages) * 100 < 2 ^ 31)%Z
    as Hsmall by (vm_compute; reflexivity).
  assert (({[1%positive := Demo.two_villages]} : heap) !! 1%positive
          = Some Demo.two_villages) as Hdf by apply lookup_singleton_eq.
  assert (h3_column Demo.degree_grid Demo.two_villages 7 = Ok ["750,4"; "750,4"])
    as Hcol by (vm_compute; reflexivity).
  split; [exact Hdf |]. split; [exact Hcol |]. split; [exact two_villages_plausible |].
  split; [exact Hsmall |].
  exact (census_percentage_bounds Demo.degree_grid _ _ _ _ _ Hdf Hcol
           two_villages_plausible Hsmall).
Defined.

Lemma assign_h3_overwrites_witness :
  ({[1%positive := Demo.two_villages]} : heap) !! 1%positive = Some Demo.two_villages
  ∧ assign_h3_to_population Demo.degree_grid 1%positive 7
      (<[1%positive := mkGeoDataFrame (features Demo.two_villages) (Some ["stale"])]>
         {[1%positive := Demo.two_villages]})
    = assign_h3_to_population Demo.degree_grid 1%positive 7
        {[1%positive := Demo.two_villages]}.
Proof.
  assert (({[1%positive := Demo.two_villages]} : heap) !! 1%positive
          = Some Demo.two_villages) as Hdf by apply lookup_singleton_eq.
  split; [exact Hdf |].
  destruct (assign_h3_overwrites Demo.degree_grid _ _ _ 7 Hdf) as [Hstale _].
  exact (Hstale (Some ["stale"])).
Defined.

Lemma table_b_keys : NoDup (key <$> Demo.table_b).
Proof. by_evaluation. Qed.

Lemma merge_keeps_left_rows_witness :
  NoDup (key <$> Demo.table_b)
  ∧ (merge Demo.table_a Demo.table_b).*1 = Demo.table_a
  ∧ (("c2", Demo.num 2), None) ∈ merge Demo.table_a Demo.table_b.
Proof.
  split; [exact table_b_keys |].
  destruct (merge_keeps_left_rows Demo.table_a Demo.table_b table_b_keys)
    as [Hrows Hnone].
  split; [exact Hrows |]. apply Hnone; by_evaluation.
Defined.

Lemma join_is_a_selection_of_left_witness :
  NoDup (key <$> Demo.table_b)
  ∧ (join Demo.table_a Demo.table_b).*1 `sublist_of` Demo.table_a
  ∧ (length (join Demo.table_a Demo.table_b) ≤ length Demo.table_a)%nat.
Proof.
  split; [exact table_b_keys |].
  destruct (join_is_a_selection_of_left Demo.table_a Demo.table_b table_b_keys)
    as (Hsub & Hlen & _).
  split; [exact Hsub | exact Hlen].
Defined.

Lemma constant_ndvi_empties_table_witness :
  series_max (cells Demo.flat).*2 = series_min (cells Demo.flat).*2
  ∧ merge_cell Demo.two_villages_summary (normalize_layer Demo.flat) Demo.flat = [].
Proof.
  assert (series_max (cells Demo.flat).*2 = series_min (cells Demo.flat).*2) as Heq
    by (vm_compute; reflexivity).
  split; [exact Heq |].
  exact (constant_ndvi_empties_table Demo.two_villages_summary Demo.flat Demo.flat Heq).
Defined.

Lemma notebook_table_is_clean_witness :
  ∃ σ',
    notebook Demo.degree_grid Demo.two_cells 1%positive Demo.two_cells 7
      {[1%positive := Demo.two_villages]}
    = Ok ([(mkCellSummary "750,4" (Census.mk 30 15 15 10) (Fin (Q2Qc (100 # 3))),
            ("750,4", Fin 1), ("750,4", Fin (Q2Qc (21 # 2))))], σ')
    ∧ in_unit_interval (Fin 1).
Proof.
  exists {[1%positive :=
            mkGeoDataFrame (features Demo.two_villages) (Some ["750,4"; "750,4"])]}.
  assert (notebook Demo.degree_grid Demo.two_cells 1%positive Demo.two_cells 7
            {[1%positive := Demo.two_villages]}
          = Ok ([(mkCellSummary "750,4" (Census.mk 30 15 15 10) (Fin (Q2Qc (100 # 3))),
                  ("750,4", Fin 1), ("750,4", Fin (Q2Qc (21 # 2))))],
                {[1%positive :=
                    mkGeoDataFrame (features Demo.two_villages)
                                   (Some ["750,4"; "750,4"])]})) as Hrun
    by by_evaluation.
  split; [exact Hrun |].
  destruct (notebook_table_is_clean Demo.degree_grid _ _ _ _ _ _ _ Hrun) as [_ Hrows].
  destruct (Hrows _ _ _ ltac:(left)) as (_ & _ & Hunit & _).
  exact Hunit.
Defined.

Lemma normalize_range_witness :
  Fin (Q2Qc (1 # 2)) ∈ normalize Demo.ramp
  ∧ (Fin (Q2Qc (1 # 2)) = NaN ∨ in_unit_interval (Fin (Q2Qc (1 # 2)))).
Proof.
  assert (Fin (Q2Qc (1 # 2)) ∈ normalize Demo.ramp) as Hin by by_evaluation.
  split; [exact Hin |].
  exact (normalize_range Demo.ramp _ Hin).
Defined.
